(** * mps-youtube: the MPRIS2 bridge ([mps_youtube/mpris.py])

    A shallow embedding of [Mpris2MediaPlayer] and of the relay loop of
    [Mpris2Controller], and the properties of the interface state store and
    of the backend bridge that the specification states about them.

    Conventions of the embedding.
    - Python objects that reach the bridge from the player thread or from
      mpv's JSON socket are values of [pyval]; a Python [float] is a binary64
      number ([PrimFloat.float]), an [int] is a [Z], a [str] is a [string]
      holding its UTF-8 bytes.
    - A method is a computation of the monad [M]: it threads the object's
      attributes ([state]), appends to a trace of the effects it performs
      (sleeps, connects, writes to the backend, D-Bus signals) and ends in a
      value, in a raised exception, or in [Unsupported] where the outcome
      rests on a CPython text conversion that is not defined here ([float]
      or [int] of a [str], [str] of a [float] or of a container).
    - A write on a bound transport is recorded in the trace with the command
      handed to the encoder, and is taken to succeed; the bytes the encoder
      produces are given by [Wire.socket_wire] and [Wire.fifo_wire].
    - What the world decides is an argument of the method it decides for:
      the outcome of each connect, the lines a socket delivers and how the
      stream ends, whether a pipe can be opened, the messages of the relay
      channel. A thread that [listenstatus] starts is recorded, not run. *)

From Stdlib Require Import ZArith List String Ascii Bool Lia Floats DecimalString.
Import ListNotations.
Local Open Scope string_scope.
Local Open Scope Z_scope.

Set Warnings "-register-all".

(** ** Python values and the built-ins the module calls *)

Module Py.

Inductive pyval : Type :=
| PNone
| PBool (b : bool)
| PInt (z : Z)
| PFloat (f : float)
| PStr (s : string)
| PTuple (l : list pyval)
| PList (l : list pyval).

Inductive exn : Type :=
| TypeError
| ValueError
| OverflowError
| ZeroDivisionError
| OSError
| KeyError (key : string)
| NameError (name : string)
| AttributeError
| EOFError
| socket_error
| DBusException (name message : string).

Inductive result (A : Type) : Type :=
| Ok (a : A)
| Raise (e : exn)
| Unsupported.
Arguments Ok {A} a.
Arguments Raise {A} e.
Arguments Unsupported {A}.

Definition rbind {A B} (r : result A) (k : A -> result B) : result B :=
  match r with
  | Ok a => k a
  | Raise e => Raise e
  | Unsupported => Unsupported
  end.

(** [bool(v)], the test of [if v:]. A NaN is true, both zeros are false. *)
Definition truthy (v : pyval) : bool :=
  match v with
  | PNone => false
  | PBool b => b
  | PInt z => negb (Z.eqb z 0)
  | PFloat f => negb (PrimFloat.eqb f 0%float)
  | PStr s => negb (String.eqb s "")
  | PTuple l | PList l => match l with [] => false | _ :: _ => true end
  end.

Definition is_None (v : pyval) : bool :=
  match v with PNone => true | _ => false end.

(** [v == 'literal'] for a string literal of the program. *)
Definition eq_str (v : pyval) (lit : string) : bool :=
  match v with PStr s => String.eqb s lit | _ => false end.

Definition Z_of_bool (b : bool) : Z := if b then 1 else 0.

(** The binary64 number nearest to an integer (ties to even); infinite when
    the integer is beyond the largest finite float. *)
Definition float_of_Z (z : Z) : float :=
  SF2Prim (binary_normalize prec emax z 0 false).

(** A finite float cut to its integer part (towards zero), as [int(f)]. *)
Definition trunc_float (f : float) : Z :=
  match Prim2SF f with
  | S754_finite s m e =>
      let a := if 0 <=? e then Z.pos m * 2 ^ e else Z.pos m / 2 ^ (- e) in
      if s then - a else a
  | _ => 0
  end.

(** [float(v)] *)
Definition float_ (v : pyval) : result float :=
  match v with
  | PNone => Raise TypeError
  | PBool b => Ok (if b then 1%float else 0%float)
  | PInt z =>
      let f := float_of_Z z in
      if PrimFloat.is_infinity f then Raise OverflowError else Ok f
  | PFloat f => Ok f
  | PStr _ => Unsupported
  | PTuple _ | PList _ => Raise TypeError
  end.

Definition str_repeat (s : string) (n : Z) : string :=
  match n with
  | Zpos p => Pos.iter (String.append s) "" p
  | _ => ""
  end.

Definition list_repeat {A} (l : list A) (n : Z) : list A :=
  match n with
  | Zpos p => Pos.iter (app l) [] p
  | _ => []
  end.

(** [v * n] for an [int] n that a float holds exactly. *)
Definition mul_int (v : pyval) (n : Z) : result pyval :=
  match v with
  | PNone => Raise TypeError
  | PBool b => Ok (PInt (Z_of_bool b * n))
  | PInt z => Ok (PInt (z * n))
  | PFloat f => Ok (PFloat (PrimFloat.mul f (float_of_Z n)))
  | PStr s => Ok (PStr (str_repeat s n))
  | PTuple l => Ok (PTuple (list_repeat l n))
  | PList l => Ok (PList (list_repeat l n))
  end.

(** [str(v)] *)
Definition str (v : pyval) : result string :=
  match v with
  | PNone => Ok "None"
  | PBool b => Ok (if b then "True" else "False")
  | PInt z => Ok (NilZero.string_of_int (Z.to_int z))
  | PStr s => Ok s
  | PFloat _ | PTuple _ | PList _ => Unsupported
  end.

(** The characters of a [str]: its bytes grouped by UTF-8 sequence (a byte
    10xxxxxx continues the character before it). *)
Definition is_continuation (c : ascii) : bool :=
  let n := N_of_ascii c in ((128 <=? n) && (n <? 192))%N.

Fixpoint chars (s : string) : list string :=
  match s with
  | EmptyString => []
  | String c rest =>
      match chars rest with
      | [] => [String c EmptyString]
      | ch :: more =>
          match ch with
          | String c' _ =>
              if is_continuation c' then String c ch :: more
              else String c EmptyString :: ch :: more
          | EmptyString => String c EmptyString :: more
          end
      end
  end.

(** [a, b, c = v] *)
Definition unpack3 (v : pyval) : result (pyval * pyval * pyval) :=
  match v with
  | PTuple l | PList l =>
      match l with
      | [a; b; c] => Ok (a, b, c)
      | _ => Raise ValueError
      end
  | PStr s =>
      match chars s with
      | [a; b; c] => Ok (PStr a, PStr b, PStr c)
      | _ => Raise ValueError
      end
  | PNone | PBool _ | PInt _ | PFloat _ => Raise TypeError
  end.

(** [a, b = v] for a [v] that is a tuple. *)
Definition unpack2 (l : list pyval) : result (pyval * pyval) :=
  match l with
  | [a; b] => Ok (a, b)
  | _ => Raise ValueError
  end.

(** The character class [[a-zA-Z0-9]]. *)
Definition alnum (c : ascii) : bool :=
  let n := N_of_ascii c in
  (((97 <=? n) && (n <=? 122)) || ((65 <=? n) && (n <=? 90))
   || ((48 <=? n) && (n <=? 57)))%N.

Fixpoint filter_string (p : ascii -> bool) (s : string) : string :=
  match s with
  | EmptyString => EmptyString
  | String c rest =>
      if p c then String c (filter_string p rest) else filter_string p rest
  end.

(** [re.sub('[^a-zA-Z0-9]', '', v)]: every character outside the class is
    dropped. The bytes of a character beyond ASCII are all at least 128, so
    dropping the bytes outside the class drops exactly those characters. *)
Definition re_sub_non_alnum (v : pyval) : result string :=
  match v with
  | PStr s => Ok (filter_string alnum s)
  | _ => Raise TypeError
  end.

End Py.
Import Py.

(** ** D-Bus values *)

Module DBus.

(** The values the object publishes: a basic D-Bus value, or a string-keyed
    dictionary of basic values (the track metadata). *)
Inductive basic : Type :=
| Boolean (b : bool)
| String_ (s : string)
| ObjectPath_ (s : string)
| Int64_ (z : Z)
| Double (f : float)
| StringArray (l : list string).

Inductive variant : Type :=
| Basic (b : basic)
| Dictionary (d : list (string * basic)).

Coercion Basic : basic >-> variant.

Definition int64_min : Z := - 2 ^ 63.
Definition int64_max : Z := 2 ^ 63 - 1.

Definition in_int64 (z : Z) : bool := (int64_min <=? z) && (z <=? int64_max).

Definition check_int64 (z : Z) : result Z :=
  if in_int64 z then Ok z else Raise OverflowError.

(** [dbus.Int64(v)]: [int(v)], then the range of a signed 64-bit integer. *)
Definition Int64 (v : pyval) : result Z :=
  match v with
  | PNone => Raise TypeError
  | PBool b => Ok (Z_of_bool b)
  | PInt z => check_int64 z
  | PFloat f =>
      if PrimFloat.is_nan f then Raise ValueError
      else if PrimFloat.is_infinity f then Raise OverflowError
      else check_int64 (trunc_float f)
  | PStr _ => Unsupported
  | PTuple _ | PList _ => Raise TypeError
  end.

(** The syntax of an object path: it starts with a slash, its elements are
    non-empty words over [[A-Za-z0-9_]], and only the root path ends with a
    slash. [path_tail prev s] reads the characters after one [prev]. *)
Definition path_char (c : ascii) : bool :=
  alnum c || Ascii.eqb c "_"%char.

Fixpoint path_tail (prev : ascii) (s : string) : bool :=
  match s with
  | EmptyString => negb (Ascii.eqb prev "/"%char)
  | String c rest =>
      if Ascii.eqb c "/"%char
      then negb (Ascii.eqb prev "/"%char) && path_tail c rest
      else path_char c && path_tail c rest
  end.

Definition valid_object_path (s : string) : bool :=
  match s with
  | String "/"%char EmptyString => true
  | String "/"%char rest => path_tail "/"%char rest
  | _ => false
  end.

(** [dbus.ObjectPath(s)] *)
Definition ObjectPath (s : string) : result string :=
  if valid_object_path s then Ok s else Raise ValueError.

(** [dbus.String(v)]: [str(v)]. *)
Definition String (v : pyval) : result string := Py.str v.

End DBus.

(** ** The object's attributes *)

Definition ROOT_INTERFACE : string := "org.mpris.MediaPlayer2".
Definition PLAYER_INTERFACE : string := "org.mpris.MediaPlayer2.Player".
Definition PROPERTIES_INTERFACE : string := "org.freedesktop.DBus.Properties".
Definition MPRIS_PATH : string := "/org/mpris/MediaPlayer2".

(** ['mps-youtube.instance' + str(os.getpid())] *)
Definition IDENTITY (pid : Z) : string :=
  "mps-youtube.instance" ++ NilZero.string_of_int (Z.to_int pid).

Definition BUS_NAME (pid : Z) : string :=
  "org.mpris.MediaPlayer2." ++ IDENTITY pid.

(** The [Metadata] dictionary: it always holds ['mpris:trackid'], and holds
    ['mpris:length'] and ['xesam:title'] once a track was announced. *)
Record metadata : Type := {
  mpris_trackid : string;
  mpris_length : option Z;
  xesam_title : option string }.

Record root_read_only : Type := {
  CanQuit : bool;
  CanSetFullscreen : bool;
  CanRaise : bool;
  HasTrackList : bool;
  Identity : string;
  SupportedUriSchemes : list string;
  SupportedMimeTypes : list string }.

Record root_read_write : Type := {
  Fullscreen : bool }.

Record player_read_only : Type := {
  PlaybackStatus : string;
  Metadata : metadata;
  Position : Z;
  MinimumRate : float;
  MaximumRate : float;
  CanGoNext : bool;
  CanGoPrevious : bool;
  CanPlay : bool;
  CanPause : bool;
  CanSeek : bool;
  CanControl : bool }.

Record player_read_write : Type := {
  Rate : float;
  Volume : float }.

(** [self.properties]: the two interfaces, each with its two partitions. *)
Record property_table : Type := {
  root_ro : root_read_only;
  root_rw : root_read_write;
  player_ro : player_read_only;
  player_rw : player_read_write }.

(** The attributes of a [Mpris2MediaPlayer]: a transport is bound when its
    handle is not [None]. *)
Record state : Type := {
  socket : option string;
  fifo : option pyval;
  mpv : bool;
  properties : property_table }.

(** [Mpris2MediaPlayer.__init__] *)
Definition init_properties (pid : Z) : property_table := {|
  root_ro := {|
    CanQuit := false;
    CanSetFullscreen := false;
    CanRaise := false;
    HasTrackList := false;
    Identity := IDENTITY pid;
    SupportedUriSchemes := [];
    SupportedMimeTypes := [] |};
  root_rw := {| Fullscreen := false |};
  player_ro := {|
    PlaybackStatus := "Stopped";
    Metadata := {|
      mpris_trackid := "/CurrentPlaylist/UnknownTrack";
      mpris_length := None;
      xesam_title := None |};
    Position := 0;
    MinimumRate := 1%float;
    MaximumRate := 1%float;
    CanGoNext := true;
    CanGoPrevious := true;
    CanPlay := true;
    CanPause := true;
    CanSeek := true;
    CanControl := true |};
  player_rw := {| Rate := 1%float; Volume := 1%float |} |}.

Definition init (pid : Z) : state := {|
  socket := None;
  fifo := None;
  mpv := false;
  properties := init_properties pid |}.

(** Assignments to attributes and to entries of the table. *)
Definition set_socket (v : option string) (s : state) : state :=
  {| socket := v; fifo := fifo s; mpv := mpv s; properties := properties s |}.

Definition set_fifo (v : option pyval) (s : state) : state :=
  {| socket := socket s; fifo := v; mpv := mpv s; properties := properties s |}.

Definition set_mpv (v : bool) (s : state) : state :=
  {| socket := socket s; fifo := fifo s; mpv := v; properties := properties s |}.

Definition set_properties (t : property_table) (s : state) : state :=
  {| socket := socket s; fifo := fifo s; mpv := mpv s; properties := t |}.

Definition with_player_ro (f : player_read_only -> player_read_only)
    (t : property_table) : property_table :=
  {| root_ro := root_ro t; root_rw := root_rw t;
     player_ro := f (player_ro t); player_rw := player_rw t |}.

Definition with_player_rw (f : player_read_write -> player_read_write)
    (t : property_table) : property_table :=
  {| root_ro := root_ro t; root_rw := root_rw t;
     player_ro := player_ro t; player_rw := f (player_rw t) |}.

Definition put_PlaybackStatus (v : string) (p : player_read_only) :=
  {| PlaybackStatus := v; Metadata := Metadata p; Position := Position p;
     MinimumRate := MinimumRate p; MaximumRate := MaximumRate p;
     CanGoNext := CanGoNext p; CanGoPrevious := CanGoPrevious p;
     CanPlay := CanPlay p; CanPause := CanPause p; CanSeek := CanSeek p;
     CanControl := CanControl p |}.

Definition put_Metadata (v : metadata) (p : player_read_only) :=
  {| PlaybackStatus := PlaybackStatus p; Metadata := v; Position := Position p;
     MinimumRate := MinimumRate p; MaximumRate := MaximumRate p;
     CanGoNext := CanGoNext p; CanGoPrevious := CanGoPrevious p;
     CanPlay := CanPlay p; CanPause := CanPause p; CanSeek := CanSeek p;
     CanControl := CanControl p |}.

Definition put_Position (v : Z) (p : player_read_only) :=
  {| PlaybackStatus := PlaybackStatus p; Metadata := Metadata p; Position := v;
     MinimumRate := MinimumRate p; MaximumRate := MaximumRate p;
     CanGoNext := CanGoNext p; CanGoPrevious := CanGoPrevious p;
     CanPlay := CanPlay p; CanPause := CanPause p; CanSeek := CanSeek p;
     CanControl := CanControl p |}.

Definition put_Volume (v : float) (p : player_read_write) :=
  {| Rate := Rate p; Volume := v |}.

(** ** Effects and the monad of methods *)

Inductive signal : Type :=
| PropertiesChanged (interface_name : string)
    (changed_properties : list (string * DBus.variant))
    (invalidated_properties : list string)
| Seeked (position : Z).

(** What a method does to the world, in order. [Sleep] is in milliseconds;
    [SocketSend c] is [socket.send(json.dumps({"command": c}).encode() + b'\n')];
    [FifoWrite c] is the write of [" ".join([str(i) for i in c]) + '\n'] to
    the pipe, flushed; [Spawn_bindmpv p] starts a thread running [bindmpv p]. *)
Inductive effect : Type :=
| Sleep (ms : Z)
| Connect (sockpath : string) (connected : bool)
| Open (path : pyval) (opened : bool)
| SocketSend (command : list pyval)
| FifoWrite (command : list pyval)
| Spawn_bindmpv (sockpath : pyval)
| Emit (sg : signal).

Record run (A : Type) : Type := Run {
  final : state;
  trace : list effect;
  outcome : result A }.

Arguments Run {A} final trace outcome.
Arguments final {A} r.
Arguments trace {A} r.
Arguments outcome {A} r.

Definition M (A : Type) : Type := state -> run A.

Definition ret {A} (a : A) : M A := fun s => Run s [] (Ok a).

Definition bind {A B} (m : M A) (k : A -> M B) : M B := fun s =>
  let r := m s in
  match outcome r with
  | Ok a =>
      let r' := k a (final r) in
      Run (final r') (trace r ++ trace r')%list (outcome r')
  | Raise e => Run (final r) (trace r) (Raise e)
  | Unsupported => Run (final r) (trace r) Unsupported
  end.

Declare Scope py_scope.
Delimit Scope py_scope with py.
Notation "x <- m ;; k" := (bind m (fun x => k))
  (at level 61, m at next level, right associativity) : py_scope.
Notation "' pat <- m ;; k" := (bind m (fun x => match x with pat => k end))
  (at level 61, pat pattern, m at next level, right associativity) : py_scope.
Notation "m ;; k" := (bind m (fun _ => k))
  (at level 61, right associativity) : py_scope.
Local Open Scope py_scope.

Definition get : M state := fun s => Run s [] (Ok s).
Definition modify (f : state -> state) : M unit := fun s => Run (f s) [] (Ok tt).
Definition perform (e : effect) : M unit := fun s => Run s [e] (Ok tt).
Definition lift {A} (r : result A) : M A := fun s => Run s [] r.
Definition raise {A} (e : exn) : M A := lift (Raise e).
Definition pass : M unit := ret tt.

(** [try: m / except <those e with handler e = Some h>: h] *)
Definition try_except {A} (m : M A) (handler : exn -> option (M A)) : M A :=
  fun s =>
    let r := m s in
    match outcome r with
    | Raise e =>
        match handler e with
        | Some h =>
            let r' := h (final r) in
            Run (final r') (trace r ++ trace r')%list (outcome r')
        | None => r
        end
    | _ => r
    end.

(** A handle is true when it is not [None]. *)
Definition bound {A} (h : option A) : bool :=
  match h with Some _ => true | None => false end.

(** ** [Mpris2MediaPlayer] *)

Definition player_prop {A} (f : player_read_only -> A) : M A :=
  s <- get ;; ret (f (player_ro (properties s))).

Definition assign_player_ro (f : player_read_only -> player_read_only) : M unit :=
  modify (fun s => set_properties (with_player_ro f (properties s)) s).

Definition assign_player_rw (f : player_read_write -> player_read_write) : M unit :=
  modify (fun s => set_properties (with_player_rw f (properties s)) s).

Definition metadata_eqb (a b : metadata) : bool :=
  String.eqb (mpris_trackid a) (mpris_trackid b)
  && match mpris_length a, mpris_length b with
     | Some x, Some y => Z.eqb x y
     | None, None => true
     | _, _ => false
     end
  && match xesam_title a, xesam_title b with
     | Some x, Some y => String.eqb x y
     | None, None => true
     | _, _ => false
     end.

(** The dictionary a [metadata] stands for. *)
Definition metadata_dict (m : metadata) : list (string * DBus.basic) :=
  (("mpris:trackid", DBus.ObjectPath_ (mpris_trackid m))
   :: match mpris_length m with
      | Some l => [("mpris:length", DBus.Int64_ l)]
      | None => []
      end
   ++ match xesam_title m with
      | Some t => [("xesam:title", DBus.String_ t)]
      | None => []
      end)%list.

(** [setproperty]: applies a change event of the player. *)
Definition setproperty (name val : pyval) : M unit :=
  if eq_str name "pause" then
    oldval <- player_prop PlaybackStatus ;;
    let newval := if truthy val then "Paused" else "Playing" in
    if negb (String.eqb newval oldval) then
      assign_player_ro (put_PlaybackStatus newval) ;;
      perform (Emit (PropertiesChanged PLAYER_INTERFACE
        [("PlaybackStatus", DBus.Basic (DBus.String_ newval))] []))
    else pass
  else if eq_str name "stop" then
    oldval <- player_prop PlaybackStatus ;;
    let newval := if truthy val then "Stopped" else "Playing" in
    if negb (String.eqb newval oldval) then
      assign_player_ro (put_PlaybackStatus newval) ;;
      perform (Emit (PropertiesChanged PLAYER_INTERFACE
        [("PlaybackStatus", DBus.Basic (DBus.String_ newval))]
        ["Metadata"; "Position"]))
    else pass
  else if eq_str name "volume" && negb (is_None val) then
    s <- get ;;
    let oldval := Volume (player_rw (properties s)) in
    f <- lift (float_ val) ;;
    let newval := PrimFloat.div f 100%float in
    if negb (PrimFloat.eqb newval oldval) then
      assign_player_rw (put_Volume newval) ;;
      perform (Emit (PropertiesChanged PLAYER_INTERFACE
        [("Volume", DBus.Basic (DBus.Double newval))] []))
    else pass
  else if eq_str name "time-pos" && truthy val then
    oldval <- player_prop Position ;;
    scaled <- lift (mul_int val (10 ^ 6)) ;;
    newval <- lift (DBus.Int64 scaled) ;;
    (if negb (Z.eqb newval oldval) then
       assign_player_ro (put_Position newval)
     else pass) ;;
    if 4 * 10 ^ 6 <=? Z.abs (newval - oldval) then
      perform (Emit (Seeked newval))
    else pass
  else if eq_str name "metadata" && truthy val then
    '(trackid, title, length) <- lift (unpack3 val) ;;
    trackid <- lift (re_sub_non_alnum trackid) ;;
    oldval <- player_prop Metadata ;;
    path <- lift (DBus.ObjectPath ("/CurrentPlaylist/ytid/" ++ trackid)) ;;
    scaled <- lift (mul_int length (10 ^ 6)) ;;
    len <- lift (DBus.Int64 scaled) ;;
    title <- lift (DBus.String title) ;;
    let newval := {| mpris_trackid := path;
                     mpris_length := Some len;
                     xesam_title := Some title |} in
    if negb (metadata_eqb newval oldval) then
      assign_player_ro (put_Metadata newval) ;;
      perform (Emit (PropertiesChanged PLAYER_INTERFACE
        [("Metadata", DBus.Dictionary (metadata_dict newval))] []))
    else pass
  else pass.

(** On the pipe [True] and [False] become the tokens of the bound player. *)
Definition fifo_token (mpv : bool) (i : pyval) : pyval :=
  match i with
  | PBool true => if mpv then PStr "yes" else PInt 1
  | PBool false => if mpv then PStr "no" else PInt 0
  | _ => i
  end.

Definition _sendcommand (command : list pyval) : M unit :=
  s <- get ;;
  if bound (socket s) then
    perform (SocketSend command)
  else if bound (fifo s) then
    let command := map (fifo_token (mpv s)) command in
    perform (FifoWrite command)
  else pass.

(** *** Binding a transport *)

(** What the socket delivers to [bindmpv]: the lines, each as [json.loads]
    reads it, and how the stream ends. *)
Inductive line : Type :=
| Malformed                                   (* not JSON: [ValueError] *)
| NotObject                                   (* JSON, but no object: no [get] *)
| Object (event name data : option pyval).    (* the keys it has *)

Inductive stream_end : Type :=
| EndOfStream
| ReadError.                                  (* [socket.error] *)

(** [resp[key]] *)
Definition getitem (field : option pyval) (key : string) : result pyval :=
  match field with
  | Some v => Ok v
  | None => Raise (KeyError key)
  end.

(** The loop [while tries < 10: ... tries += 1 / else: self.socket = None],
    by recursion on the attempts that remain, [10 - tries]. [connects i]
    tells whether the connect of attempt [i] succeeds. The result tells
    whether the loop was left by [break]. *)
Fixpoint connect_loop (sockpath : string) (connects : nat -> bool)
    (remaining tries : nat) : M bool :=
  match remaining with
  | O => modify (set_socket None) ;; ret false
  | S remaining' =>
      perform (Sleep 500) ;;
      perform (Connect sockpath (connects tries)) ;;
      if connects tries then ret true
      else connect_loop sockpath connects remaining' (S tries)
  end.

(** [for line in self.socket.makefile(): ...] *)
Fixpoint read_loop (lines : list line) (fin : stream_end) (observe_full : bool)
    : M unit :=
  match lines with
  | [] =>
      match fin with
      | EndOfStream => pass
      | ReadError => raise socket_error
      end
  | Malformed :: _ => raise ValueError
  | NotObject :: _ => raise AttributeError
  | Object event name data :: rest =>
      let change :=
        match event with
        | Some e => eq_str e "property-change"
        | None => false
        end in
      (if change && negb observe_full then
         _sendcommand [PStr "observe_property"; PInt 2; PStr "volume"] ;;
         _sendcommand [PStr "observe_property"; PInt 3; PStr "pause"]
       else pass) ;;
      (if change then
         n <- lift (getitem name "name") ;;
         d <- lift (getitem data "data") ;;
         setproperty n d
       else pass) ;;
      read_loop rest fin (observe_full || change)
  end.

Definition bindmpv (connects : nat -> bool) (lines : list line)
    (fin : stream_end) (sockpath : string) : M unit :=
  modify (set_mpv true) ;;
  modify (set_socket (Some sockpath)) ;;
  connect_loop sockpath connects 10 0 ;;
  try_except
    (_sendcommand [PStr "observe_property"; PInt 1; PStr "time-pos"] ;;
     s <- get ;;
     (if bound (socket s) then pass else raise AttributeError) ;;
     read_loop lines fin false)
    (fun e =>
       match e with
       | socket_error =>
           Some (modify (set_socket None) ;; modify (set_mpv false))
       | _ => None
       end).

(** [can_open p] tells whether [open(p, 'w')] succeeds. *)
Definition bindfifo (can_open : pyval -> bool) (fifopath : pyval) (mpv : bool)
    : M unit :=
  perform (Sleep 1000) ;;
  try_except
    (perform (Open fifopath (can_open fifopath)) ;;
     (if can_open fifopath then modify (set_fifo (Some fifopath))
      else raise (A := unit) OSError) ;;
     _sendcommand [PStr "get_property"; PStr "volume"] ;;
     modify (set_mpv mpv))
    (fun _ => Some (modify (set_fifo None))).

(** *** The methods of [org.mpris.MediaPlayer2] and of its [Player] *)

Definition Raise_ : M unit := pass.
Definition Quit : M unit := pass.

Definition Next : M unit := _sendcommand [PStr "quit"].

Definition Previous : M unit := _sendcommand [PStr "quit"; PInt 42].

Definition Pause : M unit :=
  s <- get ;;
  if mpv s then
    _sendcommand [PStr "set_property"; PStr "pause"; PBool true]
  else
    if negb (String.eqb (PlaybackStatus (player_ro (properties s))) "Paused")
    then _sendcommand [PStr "pause"]
    else pass.

Definition PlayPause : M unit :=
  s <- get ;;
  if mpv s then _sendcommand [PStr "cycle"; PStr "pause"]
  else _sendcommand [PStr "pause"].

Definition Stop : M unit := _sendcommand [PStr "quit"; PInt 43].

Definition Play : M unit :=
  s <- get ;;
  if mpv s then
    _sendcommand [PStr "set_property"; PStr "pause"; PBool false]
  else
    if negb (String.eqb (PlaybackStatus (player_ro (properties s))) "Playing")
    then _sendcommand [PStr "pause"]
    else pass.

(** [a / b] of two [int]s: the float nearest to the quotient. The quotient is
    taken with 128 more bits and a sticky bit, then rounded once. *)
Definition truediv (a b : Z) : result float :=
  if Z.eqb b 0 then Raise ZeroDivisionError
  else
    let n := Z.abs a * 2 ^ 128 in
    let d := Z.abs b in
    let m := 2 * (n / d) + (if Z.eqb (n mod d) 0 then 0 else 1) in
    let m := if Z.eqb (Z.sgn a * Z.sgn b) (-1) then - m else m in
    let f := SF2Prim (binary_normalize prec emax m (-129) false) in
    if PrimFloat.is_infinity f then Raise OverflowError else Ok f.

Definition Seek (offset : Z) : M unit :=
  q <- lift (truediv offset (10 ^ 6)) ;;
  _sendcommand [PStr "seek"; PFloat q].

(** The names [SetPosition] can read: its parameters; the module binds no
    [offset], and neither do the built-ins. *)
Definition SetPosition_name (track_id : string) (position : Z) (name : string)
    : result pyval :=
  if String.eqb name "track_id" then Ok (PStr track_id)
  else if String.eqb name "position" then Ok (PInt position)
  else Raise (NameError name).

Definition SetPosition (track_id : string) (position : Z) : M unit :=
  s <- get ;;
  if String.eqb track_id (mpris_trackid (Metadata (player_ro (properties s))))
  then
    offset <- lift (SetPosition_name track_id position "offset") ;;
    match offset with
    | PInt offset =>
        q <- lift (truediv offset (10 ^ 6)) ;;
        _sendcommand [PStr "seek"; PFloat q; PInt 2]
    | _ => raise TypeError
    end
  else pass.

Definition OpenUri (uri : string) : M unit := pass.

(** *** [org.freedesktop.DBus.Properties] *)

Definition dict (A : Type) : Type := list (string * A).

Fixpoint dict_get {A} (d : dict A) (k : string) : option A :=
  match d with
  | [] => None
  | (k', v) :: rest => if String.eqb k k' then Some v else dict_get rest k
  end.

Definition dict_mem {A} (d : dict A) (k : string) : bool :=
  match dict_get d k with Some _ => true | None => false end.

(** [d[k] = v]: in place when the key is there, else at the end. *)
Fixpoint dict_set {A} (d : dict A) (k : string) (v : A) : dict A :=
  match d with
  | [] => [(k, v)]
  | (k', v') :: rest =>
      if String.eqb k k' then (k, v) :: rest else (k', v') :: dict_set rest k v
  end.

(** [d.update(e)] *)
Definition dict_update {A} (d e : dict A) : dict A :=
  fold_left (fun acc kv => dict_set acc (fst kv) (snd kv)) e d.

(** The two partitions of an interface, as the dictionaries of the table. *)
Record partitions : Type := {
  read_only : dict DBus.variant;
  read_write : dict DBus.variant }.

Definition root_partitions (t : property_table) : partitions :=
  let ro := root_ro t in
  let rw := root_rw t in
  {| read_only :=
       [("CanQuit", DBus.Basic (DBus.Boolean (CanQuit ro)));
        ("CanSetFullscreen", DBus.Basic (DBus.Boolean (CanSetFullscreen ro)));
        ("CanRaise", DBus.Basic (DBus.Boolean (CanRaise ro)));
        ("HasTrackList", DBus.Basic (DBus.Boolean (HasTrackList ro)));
        ("Identity", DBus.Basic (DBus.String_ (Identity ro)));
        ("SupportedUriSchemes",
           DBus.Basic (DBus.StringArray (SupportedUriSchemes ro)));
        ("SupportedMimeTypes",
           DBus.Basic (DBus.StringArray (SupportedMimeTypes ro)))];
     read_write :=
       [("Fullscreen", DBus.Basic (DBus.Boolean (Fullscreen rw)))] |}.

Definition player_partitions (t : property_table) : partitions :=
  let ro := player_ro t in
  let rw := player_rw t in
  {| read_only :=
       [("PlaybackStatus", DBus.Basic (DBus.String_ (PlaybackStatus ro)));
        ("Metadata", DBus.Dictionary (metadata_dict (Metadata ro)));
        ("Position", DBus.Basic (DBus.Int64_ (Position ro)));
        ("MinimumRate", DBus.Basic (DBus.Double (MinimumRate ro)));
        ("MaximumRate", DBus.Basic (DBus.Double (MaximumRate ro)));
        ("CanGoNext", DBus.Basic (DBus.Boolean (CanGoNext ro)));
        ("CanGoPrevious", DBus.Basic (DBus.Boolean (CanGoPrevious ro)));
        ("CanPlay", DBus.Basic (DBus.Boolean (CanPlay ro)));
        ("CanPause", DBus.Basic (DBus.Boolean (CanPause ro)));
        ("CanSeek", DBus.Basic (DBus.Boolean (CanSeek ro)));
        ("CanControl", DBus.Basic (DBus.Boolean (CanControl ro)))];
     read_write :=
       [("Rate", DBus.Basic (DBus.Double (Rate rw)));
        ("Volume", DBus.Basic (DBus.Double (Volume rw)))] |}.

(** [self.properties[interface_name]], or [None] when
    [interface_name in self.properties] is false. *)
Definition interface (t : property_table) (interface_name : string)
    : option partitions :=
  if String.eqb interface_name ROOT_INTERFACE then Some (root_partitions t)
  else if String.eqb interface_name PLAYER_INTERFACE
  then Some (player_partitions t)
  else None.

Definition UnknownInterface (interface_name : string) : exn :=
  DBusException "com.example.UnknownInterface"
    ("This object does not implement the " ++ interface_name ++ " interface").

Definition GetAll (interface_name : string) : M (dict DBus.variant) :=
  s <- get ;;
  match interface (properties s) interface_name with
  | Some p =>
      let t := read_only p in
      let t := dict_update t (read_write p) in
      ret t
  | None => raise (UnknownInterface interface_name)
  end.

Definition Get (interface_name property_name : string) : M DBus.variant :=
  t <- GetAll interface_name ;;
  match dict_get t property_name with
  | Some v => ret v
  | None => raise (KeyError property_name)
  end.

Definition Set_ (interface_name property_name : string) (new_value : pyval)
    : M unit :=
  s <- get ;;
  match interface (properties s) interface_name with
  | Some p =>
      if dict_mem (read_write p) property_name then
        if String.eqb property_name "Volume" then
          scaled <- lift (mul_int new_value 100) ;;
          _sendcommand [PStr "set_property"; PStr "volume"; scaled] ;;
          s <- get ;;
          if bound (fifo s) then
            _sendcommand [PStr "get_property"; PStr "volume"]
          else pass
        else pass
      else pass
  | None => raise (UnknownInterface interface_name)
  end.

(** ** [Mpris2Controller.listenstatus] *)

(** The loop over [conn.recv()]: [msgs] are the objects received before the
    channel is closed, where [recv] raises [EOFError]. *)
Fixpoint listen_loop (can_open : pyval -> bool) (msgs : list pyval) : M unit :=
  match msgs with
  | [] => raise EOFError
  | data :: rest =>
      match data with
      | PTuple l =>
          '(name, val) <- lift (unpack2 l) ;;
          if eq_str name "socket" then perform (Spawn_bindmpv val)
          else if eq_str name "mplayer-fifo" then bindfifo can_open val false
          else if eq_str name "mpv-fifo" then bindfifo can_open val true
          else setproperty name val
      | _ => pass
      end ;;
      listen_loop can_open rest
  end.

Definition listenstatus (can_open : pyval -> bool) (msgs : list pyval)
    : M unit :=
  try_except (listen_loop can_open msgs) (fun _ => Some pass).

(** ** The bytes on the wire *)

Module Wire.

Definition hex_digit (n : N) : ascii :=
  ascii_of_N (if (n <? 10)%N then 48 + n else 87 + n).

(** ['\\u{0:04x}'.format(n)] *)
Definition u_escape (n : N) : string :=
  String "092"%char (String "u"%char
    (String (hex_digit (N.land (N.shiftr n 12) 15))
      (String (hex_digit (N.land (N.shiftr n 8) 15))
        (String (hex_digit (N.land (N.shiftr n 4) 15))
          (String (hex_digit (N.land n 15)) EmptyString))))).

(** The code point of one character, from its UTF-8 bytes. *)
Definition code_point (ch : string) : N :=
  match ch with
  | String b0 rest =>
      let lead := N_of_ascii b0 in
      let start :=
        if (lead <? 128)%N then lead
        else if (lead <? 224)%N then N.land lead 31
        else if (lead <? 240)%N then N.land lead 15
        else N.land lead 7 in
      fold_left (fun acc b => N.lor (N.shiftl acc 6) (N.land (N_of_ascii b) 63))
        (list_ascii_of_string rest) start
  | EmptyString => 0%N
  end.

(** One character of a JSON string under [ensure_ascii]: printable ASCII
    stands for itself, but for the quote and the backslash. *)
Definition escape_char (ch : string) : string :=
  let n := code_point ch in
  if (n =? 92)%N then "\\"
  else if (n =? 34)%N then String "092"%char (String "034"%char EmptyString)
  else if ((32 <=? n) && (n <=? 126))%N then ch
  else if (n =? 8)%N then "\b"
  else if (n =? 12)%N then "\f"
  else if (n =? 10)%N then "\n"
  else if (n =? 13)%N then "\r"
  else if (n =? 9)%N then "\t"
  else if (n <? 65536)%N then u_escape n
  else
    let m := (n - 65536)%N in
    u_escape (N.lor 55296 (N.land (N.shiftr m 10) 1023))
    ++ u_escape (N.lor 56320 (N.land m 1023)).

Definition quote : string := String "034"%char EmptyString.

Definition json_string (s : string) : string :=
  quote ++ String.concat "" (map escape_char (chars s)) ++ quote.

Definition decimal (z : Z) : string := NilZero.string_of_int (Z.to_int z).

Section Encoders.

(** [float.__repr__], the shortest decimal text that reads back as the
    float: CPython's, not defined here. *)
Variable float_repr : float -> string.

Definition json_float (f : float) : string :=
  if PrimFloat.is_nan f then "NaN"
  else if PrimFloat.eqb f infinity then "Infinity"
  else if PrimFloat.eqb f neg_infinity then "-Infinity"
  else float_repr f.

(** [json.dumps(v)] with the default separators. *)
Fixpoint json_dumps (v : pyval) : string :=
  let items :=
    fix items (l : list pyval) : list string :=
      match l with
      | [] => []
      | x :: rest => json_dumps x :: items rest
      end in
  match v with
  | PNone => "null"
  | PBool b => if b then "true" else "false"
  | PInt z => decimal z
  | PFloat f => json_float f
  | PStr s => json_string s
  | PTuple l | PList l => "[" ++ String.concat ", " (items l) ++ "]"
  end.

(** [json.dumps({"command": command}).encode() + b'\n'] *)
Definition socket_wire (command : list pyval) : string :=
  "{" ++ json_string "command" ++ ": " ++ json_dumps (PList command) ++ "}"
  ++ String "010"%char EmptyString.

(** [str(i)] of an item of a command; [None] for a container, whose text is
    the [repr] of its items. *)
Definition str_item (i : pyval) : option string :=
  match i with
  | PFloat f => Some (float_repr f)
  | _ => match Py.str i with Ok s => Some s | _ => None end
  end.

Fixpoint str_items (l : list pyval) : option (list string) :=
  match l with
  | [] => Some []
  | i :: rest =>
      match str_item i, str_items rest with
      | Some s, Some ss => Some (s :: ss)
      | _, _ => None
      end
  end.

(** [" ".join([str(i) for i in command]) + '\n'] *)
Definition fifo_wire (command : list pyval) : option string :=
  match str_items command with
  | Some ss => Some (String.concat " " ss ++ String "010"%char EmptyString)
  | None => None
  end.

End Encoders.

End Wire.

(** ** Event sequences *)

(** The change events of a list, applied in order by [setproperty]; the run
    stops at the first exception. *)
Fixpoint apply_events (events : list (pyval * pyval)) : M unit :=
  match events with
  | [] => pass
  | (name, val) :: rest => setproperty name val ;; apply_events rest
  end.

Definition status (s : state) : string :=
  PlaybackStatus (player_ro (properties s)).

Definition position (s : state) : Z :=
  Position (player_ro (properties s)).

Definition current_metadata (s : state) : metadata :=
  Metadata (player_ro (properties s)).

Definition put_status (v : string) (s : state) : state :=
  set_properties (with_player_ro (put_PlaybackStatus v) (properties s)) s.

Definition put_position (v : Z) (s : state) : state :=
  set_properties (with_player_ro (put_Position v) (properties s)) s.

Definition put_metadata (v : metadata) (s : state) : state :=
  set_properties (with_player_ro (put_Metadata v) (properties s)) s.

Definition volume (s : state) : float :=
  Volume (player_rw (properties s)).

Definition put_volume (v : float) (s : state) : state :=
  set_properties (with_player_rw (put_Volume v) (properties s)) s.

Definition playback_statuses : list string := ["Playing"; "Paused"; "Stopped"].

Definition pause_status (val : pyval) : string :=
  if truthy val then "Paused" else "Playing".

Definition stop_status (val : pyval) : string :=
  if truthy val then "Stopped" else "Playing".

Definition status_changed (newval : string) (invalidated : list string) : effect :=
  Emit (PropertiesChanged PLAYER_INTERFACE
          [("PlaybackStatus", DBus.Basic (DBus.String_ newval))] invalidated).

Definition pause_or_stop (ev : pyval * pyval) : Prop :=
  fst ev = PStr "pause" \/ fst ev = PStr "stop".

(** The shape of what [setproperty] emits: a [Seeked], or a
    [PropertiesChanged] of the player interface carrying one changed
    property. *)
Definition store_signal (e : effect) : Prop :=
  match e with
  | Emit (PropertiesChanged i changed _) =>
      i = PLAYER_INTERFACE
      /\ exists k v, changed = [(k, v)]
                     /\ In k ["PlaybackStatus"; "Volume"; "Metadata"]
  | Emit (Seeked _) => True
  | _ => False
  end.

(** The properties whose new value a notification carries. *)
Definition changed_keys (e : effect) : list string :=
  match e with
  | Emit (PropertiesChanged _ changed _) => map fst changed
  | _ => []
  end.

(** The properties a notification names as invalidated. *)
Definition invalidated_keys (e : effect) : list string :=
  match e with
  | Emit (PropertiesChanged _ _ invalidated) => invalidated
  | _ => []
  end.

(** *** Positions *)

(** The product [val * 10**6] of a number, cut to its integer part: exact
    for an [int], the float product towards zero for a [float]. *)
Definition micros (val : pyval) : Z :=
  match val with
  | PInt z => z * 10 ^ 6
  | PFloat f => trunc_float (PrimFloat.mul f (float_of_Z (10 ^ 6)))
  | _ => 0
  end.

(** [val] is a number whose product with [10**6] is a signed 64-bit count
    of microseconds. *)
Definition fits_int64 (val : pyval) : Prop :=
  match val with
  | PInt z => DBus.in_int64 (z * 10 ^ 6) = true
  | PFloat f =>
      let p := PrimFloat.mul f (float_of_Z (10 ^ 6)) in
      PrimFloat.is_nan p = false /\ PrimFloat.is_infinity p = false
      /\ DBus.in_int64 (trunc_float p) = true
  | _ => False
  end.

(** The integer nearest to the fraction [n / d], [d] positive, ties to the
    even one. *)
Definition round_half_even (n d : Z) : Z :=
  let q := n / d in
  let r := n mod d in
  if 2 * r <? d then q
  else if d <? 2 * r then q + 1
  else if Z.even q then q else q + 1.

(** Following the words of the specification, [round(v * 1e6)]: the integer
    nearest to the product of the number [val] and one million. *)
Definition rounded_micros (val : pyval) : Z :=
  match val with
  | PInt z => z * 10 ^ 6
  | PFloat f =>
      match Prim2SF f with
      | S754_finite sign m e =>
          let n := (if sign then Z.neg m else Z.pos m) * 10 ^ 6 in
          if 0 <=? e then n * 2 ^ e else round_half_even n (2 ^ (- e))
      | _ => 0
      end
  | _ => 0
  end.

(** Two positions of one track, a fraction of a microsecond apart from a
    whole count; and a position beyond the 64-bit range. *)
Definition pos_2_pow_minus_19 : pyval := PFloat 1.9073486328125e-06%float.
Definition pos_beyond_int64 : pyval := PInt (10 ^ 13).

(** *** Commands *)

(** What [_sendcommand command] writes in the state [s]: on the socket when
    it is bound, else on the pipe when that is bound, else nothing. *)
Definition sent (s : state) (command : list pyval) : list effect :=
  if bound (socket s) then [SocketSend command]
  else if bound (fifo s) then [FifoWrite (map (fifo_token (mpv s)) command)]
  else [].

(** Commands sent one after the other. *)
Fixpoint send_all (commands : list (list pyval)) : M unit :=
  match commands with
  | [] => pass
  | command :: rest => _sendcommand command ;; send_all rest
  end.

(** The pipe of an mpv, bound while no socket is, and the player paused. *)
Definition mpv_pipe_paused : state :=
  final ((bindfifo (fun _ => true) (PStr "/tmp/mpv.fifo") true ;;
          setproperty (PStr "pause") (PBool true)) (init 0)).

(** The transport of [s'] is that of [s]: the handles and the flag. *)
Definition same_transport (s s' : state) : Prop :=
  socket s' = socket s /\ fifo s' = fifo s /\ mpv s' = mpv s.

Definition keeps_transport {A} (m : M A) : Prop :=
  forall s, same_transport s (final (m s)).

(** *** Connecting *)

(** [n] attempts from the attempt [first] on: each sleeps half a second,
    then connects. *)
Definition attempts (sockpath : string) (connects : nat -> bool)
    (first n : nat) : list effect :=
  flat_map (fun i => [Sleep 500; Connect sockpath (connects i)]) (seq first n).

Definition is_connect (e : effect) : bool :=
  match e with Connect _ _ => true | _ => false end.

Definition no_connect (e : effect) : Prop := is_connect e = false.

(** *** Events that are not applied *)

Definition event_tags : list string :=
  ["pause"; "stop"; "volume"; "time-pos"; "metadata"].

Inductive ignored : pyval -> pyval -> Prop :=
| ignored_tag name val :
    (forall tag, In tag event_tags -> name <> PStr tag) -> ignored name val
| ignored_volume : ignored (PStr "volume") PNone
| ignored_time_pos val : truthy val = false -> ignored (PStr "time-pos") val
| ignored_metadata val : truthy val = false -> ignored (PStr "metadata") val.

(** *** Track metadata *)

(** Every character of [s] satisfies [p]. *)
Fixpoint string_forall (p : ascii -> bool) (s : string) : Prop :=
  match s with
  | EmptyString => True
  | String c rest => p c = true /\ string_forall p rest
  end.

(** The identifier with every character outside [[A-Za-z0-9]] removed. *)
Definition sanitized (id : string) : string := filter_string alnum id.

(** The dictionary [setproperty] builds from [(id, title, length)]. *)
Definition built_metadata (id title : string) (length : Z) : metadata :=
  {| mpris_trackid := "/CurrentPlaylist/ytid/" ++ sanitized id;
     mpris_length := Some (length * 10 ^ 6);
     xesam_title := Some title |}.

Definition metadata_changed (newval : metadata) : effect :=
  Emit (PropertiesChanged PLAYER_INTERFACE
          [("Metadata", DBus.Dictionary (metadata_dict newval))] []).

Definition track (id title : string) (length : Z) : pyval :=
  PTuple [PStr id; PStr title; PInt length].

(** *** Lines on the wire *)

Definition newline : string := String "010"%char EmptyString.

Definition quoted (s : string) : string := Wire.quote ++ s ++ Wire.quote.

(** The JSON line of a command whose items are written [items]. *)
Definition command_line (items : string) : string :=
  "{" ++ quoted "command" ++ ": [" ++ items ++ "]}" ++ newline.

(** *** Events as changes *)

(** What an event asks of the store. *)
Inductive change : Type :=
| Unchanged
| NewStatus (newval : string) (invalidated : list string)
| NewVolume (newval : float)
| NewPosition (newval : Z)
| NewMetadata (newval : metadata).

(** The value [setproperty] computes from an event, before it looks at the
    stored one: the conversions of the branch the tag selects. *)
Definition resolve (name val : pyval) : result change :=
  if eq_str name "pause" then Ok (NewStatus (pause_status val) [])
  else if eq_str name "stop"
  then Ok (NewStatus (stop_status val) ["Metadata"; "Position"])
  else if eq_str name "volume" && negb (is_None val) then
    rbind (float_ val) (fun f => Ok (NewVolume (PrimFloat.div f 100%float)))
  else if eq_str name "time-pos" && truthy val then
    rbind (mul_int val (10 ^ 6)) (fun scaled =>
    rbind (DBus.Int64 scaled) (fun newval => Ok (NewPosition newval)))
  else if eq_str name "metadata" && truthy val then
    rbind (unpack3 val) (fun x =>
    let '(trackid, title, length) := x in
    rbind (re_sub_non_alnum trackid) (fun trackid =>
    rbind (DBus.ObjectPath ("/CurrentPlaylist/ytid/" ++ trackid)) (fun path =>
    rbind (mul_int length (10 ^ 6)) (fun scaled =>
    rbind (DBus.Int64 scaled) (fun len =>
    rbind (DBus.String title) (fun title =>
    Ok (NewMetadata {| mpris_trackid := path;
                       mpris_length := Some len;
                       xesam_title := Some title |})))))))
  else Ok Unchanged.

(** The comparison with the stored value, the store and the signal. *)
Definition commit (c : change) : M unit :=
  match c with
  | Unchanged => pass
  | NewStatus newval invalidated =>
      s <- get ;;
      if negb (String.eqb newval (status s)) then
        modify (put_status newval) ;;
        perform (status_changed newval invalidated)
      else pass
  | NewVolume newval =>
      s <- get ;;
      if negb (PrimFloat.eqb newval (volume s)) then
        modify (put_volume newval) ;;
        perform (Emit (PropertiesChanged PLAYER_INTERFACE
          [("Volume", DBus.Basic (DBus.Double newval))] []))
      else pass
  | NewPosition newval =>
      s <- get ;;
      (if negb (Z.eqb newval (position s)) then modify (put_position newval)
       else pass) ;;
      if 4 * 10 ^ 6 <=? Z.abs (newval - position s) then
        perform (Emit (Seeked newval))
      else pass
  | NewMetadata newval =>
      s <- get ;;
      if negb (metadata_eqb newval (current_metadata s)) then
        modify (put_metadata newval) ;;
        perform (metadata_changed newval)
      else pass
  end.

(** A change whose value equals itself: every change but a volume that is
    not a number. *)
Definition reflexive_change (c : change) : Prop :=
  match c with
  | NewVolume newval => PrimFloat.is_nan newval = false
  | _ => True
  end.

(** The exceptions of the conversions. *)
Definition conversion_error (e : exn) : Prop :=
  e = TypeError \/ e = ValueError \/ e = OverflowError.

(** The value of a change fits the D-Bus type of its property. *)
Definition typed_change (c : change) : Prop :=
  match c with
  | Unchanged => True
  | NewStatus newval _ => In newval playback_statuses
  | NewVolume _ => True
  | NewPosition newval => DBus.in_int64 newval = true
  | NewMetadata newval =>
      DBus.valid_object_path (mpris_trackid newval) = true
      /\ (forall l, mpris_length newval = Some l -> DBus.in_int64 l = true)
  end.

(** *** What the published values must satisfy *)

(** The values of the store fit the D-Bus types they are published with. *)
Definition well_typed (s : state) : Prop :=
  In (status s) playback_statuses
  /\ DBus.in_int64 (position s) = true
  /\ DBus.valid_object_path (mpris_trackid (current_metadata s)) = true
  /\ (forall l, mpris_length (current_metadata s) = Some l ->
      DBus.in_int64 l = true).

(** What no event touches: the transport, the root interface, and the
    rates and capabilities of the player. *)
Record constants : Type := {
  c_socket : option string;
  c_fifo : option pyval;
  c_mpv : bool;
  c_root_ro : root_read_only;
  c_root_rw : root_read_write;
  c_Rate : float;
  c_MinimumRate : float;
  c_MaximumRate : float;
  c_Can : list bool }.

Definition constants_of (s : state) : constants :=
  let t := properties s in
  {| c_socket := socket s;
     c_fifo := fifo s;
     c_mpv := mpv s;
     c_root_ro := root_ro t;
     c_root_rw := root_rw t;
     c_Rate := Rate (player_rw t);
     c_MinimumRate := MinimumRate (player_ro t);
     c_MaximumRate := MaximumRate (player_ro t);
     c_Can := [CanGoNext (player_ro t); CanGoPrevious (player_ro t);
               CanPlay (player_ro t); CanPause (player_ro t);
               CanSeek (player_ro t); CanControl (player_ro t)] |}.

(** A computation keeps what holds of the state. *)
Definition invariant (P : state -> Prop) {A} (m : M A) : Prop :=
  forall s, P s -> P (final (m s)).

(** *** Method calls *)

(** A call of a method of the object over D-Bus. *)
Inductive call : Type :=
| Call_Raise
| Call_Quit
| Call_Next
| Call_Previous
| Call_Pause
| Call_PlayPause
| Call_Stop
| Call_Play
| Call_Seek (offset : Z)
| Call_SetPosition (track_id : string) (position : Z)
| Call_OpenUri (uri : string)
| Call_Get (interface_name property_name : string)
| Call_GetAll (interface_name : string)
| Call_Set (interface_name property_name : string) (new_value : pyval).

Inductive reply : Type :=
| Void
| Value (v : DBus.variant)
| Values (d : dict DBus.variant).

Definition returning {A} (f : A -> reply) (m : M A) : M reply :=
  a <- m ;; ret (f a).

Definition invoke (c : call) : M reply :=
  match c with
  | Call_Raise => returning (fun _ => Void) Raise_
  | Call_Quit => returning (fun _ => Void) Quit
  | Call_Next => returning (fun _ => Void) Next
  | Call_Previous => returning (fun _ => Void) Previous
  | Call_Pause => returning (fun _ => Void) Pause
  | Call_PlayPause => returning (fun _ => Void) PlayPause
  | Call_Stop => returning (fun _ => Void) Stop
  | Call_Play => returning (fun _ => Void) Play
  | Call_Seek offset => returning (fun _ => Void) (Seek offset)
  | Call_SetPosition track_id position =>
      returning (fun _ => Void) (SetPosition track_id position)
  | Call_OpenUri uri => returning (fun _ => Void) (OpenUri uri)
  | Call_Get interface_name property_name =>
      returning Value (Get interface_name property_name)
  | Call_GetAll interface_name => returning Values (GetAll interface_name)
  | Call_Set interface_name property_name new_value =>
      returning (fun _ => Void) (Set_ interface_name property_name new_value)
  end.

(** A write to the backend. *)
Definition is_write (e : effect) : Prop :=
  match e with
  | SocketSend _ | FifoWrite _ => True
  | _ => False
  end.

(** The calls the main loop serves one after the other: an exception is the
    reply to its caller, and the next call is served all the same. *)
Fixpoint serve (calls : list call) (s : state) : state * list effect :=
  match calls with
  | [] => (s, [])
  | c :: rest =>
      let r := invoke c s in
      let '(s', t) := serve rest (final r) in
      (s', (trace r ++ t)%list)
  end.

(** *** The relay *)

(** The message of a change event. *)
Definition message (ev : pyval * pyval) : pyval := PTuple [fst ev; snd ev].

(** The tags that bind a transport. *)
Definition bind_tags : list string := ["socket"; "mplayer-fifo"; "mpv-fifo"].

Definition plain_event (ev : pyval * pyval) : Prop :=
  forall tag, In tag bind_tags -> fst ev <> PStr tag.




(** *** Lines *)

Definition not_newline (c : ascii) : bool := negb (Ascii.eqb c "010"%char).

(** A text that holds no newline. *)
Definition one_line (s : string) : Prop := string_forall not_newline s.

(** The bytes of one character of [chars]: a byte, then continuation bytes. *)
Definition character (ch : string) : Prop :=
  match ch with
  | String _ tail => string_forall is_continuation tail
  | EmptyString => False
  end.

(** ** Properties of the interface state store *)

(** Decides the tests of a tag against the literals of [setproperty], and
    runs the monad, leaving comparisons of stored strings alone. *)
Ltac branch :=
  repeat match goal with
  | |- context [eq_str (PStr ?a) ?b] =>
      let r := eval vm_compute in (eq_str (PStr a) b) in
      change (eq_str (PStr a) b) with r
  end;
  cbn -[String.eqb truthy Z.eqb Z.leb Z.pow Z.mul].

Section StateStore.

Lemma run_eta {A} (r : run A) : Run (final r) (trace r) (outcome r) = r.
Proof. now destruct r. Qed.

Lemma bind_ok {A B} (m : M A) (k : A -> M B) s s1 t1 a :
  m s = Run s1 t1 (Ok a) ->
  bind m k s = Run (final (k a s1)) (t1 ++ trace (k a s1))%list (outcome (k a s1)).
Proof. intros H. unfold bind. now rewrite H. Qed.

Lemma bind_raise {A B} (m : M A) (k : A -> M B) s s1 t1 e :
  m s = Run s1 t1 (Raise e) -> bind m k s = Run s1 t1 (Raise e).
Proof. intros H. unfold bind. now rewrite H. Qed.

Lemma setproperty_pause val s :
  setproperty (PStr "pause") val s =
    if String.eqb (pause_status val) (status s) then Run s [] (Ok tt)
    else Run (put_status (pause_status val) s)
             [status_changed (pause_status val) []] (Ok tt).
Proof.
  unfold setproperty, pause_status, status. branch.
  destruct (truthy val);
    match goal with |- context [String.eqb ?a ?b] => destruct (String.eqb a b) end;
    reflexivity.
Qed.

Lemma setproperty_stop val s :
  setproperty (PStr "stop") val s =
    if String.eqb (stop_status val) (status s) then Run s [] (Ok tt)
    else Run (put_status (stop_status val) s)
             [status_changed (stop_status val) ["Metadata"; "Position"]] (Ok tt).
Proof.
  unfold setproperty, stop_status, status. branch.
  destruct (truthy val);
    match goal with |- context [String.eqb ?a ?b] => destruct (String.eqb a b) end;
    reflexivity.
Qed.

Lemma pause_status_in val : In (pause_status val) playback_statuses.
Proof. unfold pause_status, playback_statuses. destruct (truthy val); cbn; auto. Qed.

Lemma stop_status_in val : In (stop_status val) playback_statuses.
Proof. unfold stop_status, playback_statuses. destruct (truthy val); cbn; auto. Qed.

(** After a pause or stop event the stored status is the computed one. *)
Lemma pause_or_stop_step name val s :
  pause_or_stop (name, val) ->
  outcome (setproperty name val s) = Ok tt
  /\ In (status (final (setproperty name val s))) playback_statuses.
Proof.
  intros [H | H]; cbn in H; subst name.
  - rewrite setproperty_pause.
    destruct (String.eqb_spec (pause_status val) (status s)) as [E | E]; cbn.
    + split; [reflexivity | rewrite <- E; apply pause_status_in].
    + split; [reflexivity | apply pause_status_in].
  - rewrite setproperty_stop.
    destruct (String.eqb_spec (stop_status val) (status s)) as [E | E]; cbn.
    + split; [reflexivity | rewrite <- E; apply stop_status_in].
    + split; [reflexivity | apply stop_status_in].
Qed.

Lemma apply_events_cons name val rest s :
  outcome (setproperty name val s) = Ok tt ->
  final (apply_events ((name, val) :: rest) s)
    = final (apply_events rest (final (setproperty name val s)))
  /\ outcome (apply_events ((name, val) :: rest) s)
    = outcome (apply_events rest (final (setproperty name val s)))
  /\ trace (apply_events ((name, val) :: rest) s)
    = (trace (setproperty name val s)
       ++ trace (apply_events rest (final (setproperty name val s))))%list.
Proof.
  intros H. cbn [apply_events]. unfold bind. rewrite H. cbn. auto.
Qed.

Lemma pause_stop_sequence events :
  Forall pause_or_stop events ->
  forall s, In (status s) playback_statuses ->
  outcome (apply_events events s) = Ok tt
  /\ In (status (final (apply_events events s))) playback_statuses.
Proof.
  induction 1 as [| [name val] rest Hev _ IH]; intros s Hs.
  - cbn. auto.
  - destruct (@pause_or_stop_step name val s Hev) as [Hok Hin].
    destruct (@apply_events_cons name val rest s Hok) as (Hf & Ho & _).
    rewrite Hf, Ho. now apply IH.
Qed.

(** C1. Every pause event computes [Paused] for a true value and [Playing]
    otherwise, every stop event computes [Stopped] or [Playing]; when the
    computed status is the stored one nothing happens, otherwise it is stored
    and one [PropertiesChanged] is emitted, with no invalidated property for
    a pause and with [Metadata] and [Position] invalidated for a stop; and
    along every sequence of pause and stop events the stored status stays
    one of [Playing], [Paused], [Stopped]. *)
Theorem playback_status_events :
  (forall val s,
     (pause_status val = status s ->
        setproperty (PStr "pause") val s = Run s [] (Ok tt))
     /\ (pause_status val <> status s ->
        setproperty (PStr "pause") val s =
          Run (put_status (pause_status val) s)
              [status_changed (pause_status val) []] (Ok tt)))
  /\ (forall val s,
     (stop_status val = status s ->
        setproperty (PStr "stop") val s = Run s [] (Ok tt))
     /\ (stop_status val <> status s ->
        setproperty (PStr "stop") val s =
          Run (put_status (stop_status val) s)
              [status_changed (stop_status val) ["Metadata"; "Position"]]
              (Ok tt)))
  /\ (forall events s,
     Forall pause_or_stop events ->
     In (status s) playback_statuses ->
     outcome (apply_events events s) = Ok tt
     /\ In (status (final (apply_events events s))) playback_statuses).
Proof.
  split; [| split].
  - intros val s. rewrite setproperty_pause.
    destruct (String.eqb_spec (pause_status val) (status s)); split; intros;
      congruence.
  - intros val s. rewrite setproperty_stop.
    destruct (String.eqb_spec (stop_status val) (status s)); split; intros;
      congruence.
  - intros events s Hev Hs. now apply pause_stop_sequence.
Qed.

End StateStore.

(** ** Traces *)

Section Traces.

Variable P : effect -> Prop.

Lemma trace_bind {A B} (m : M A) (k : A -> M B) s :
  Forall P (trace (m s)) ->
  (forall a s', Forall P (trace (k a s'))) ->
  Forall P (trace (bind m k s)).
Proof.
  intros Hm Hk. unfold bind. destruct (outcome (m s)); cbn; auto.
  apply Forall_app; auto.
Qed.

Lemma trace_silent {A} (m : M A) s : trace (m s) = [] -> Forall P (trace (m s)).
Proof. intros ->. constructor. Qed.

Lemma trace_perform e s : P e -> Forall P (trace (perform e s)).
Proof. cbn. auto. Qed.

Lemma trace_try {A} (m : M A) h s :
  Forall P (trace (m s)) ->
  (forall e k s', h e = Some k -> Forall P (trace (k s'))) ->
  Forall P (trace (try_except m h s)).
Proof.
  intros Hm Hh. unfold try_except. destruct (outcome (m s)); auto.
  destruct (h e) eqn:E; auto. cbn. apply Forall_app; eauto.
Qed.

End Traces.

Ltac trace_step :=
  first
    [ apply trace_bind; [| intros ]
    | apply trace_silent; reflexivity
    | apply trace_perform
    | match goal with
      | |- Forall _ (trace ((if ?c then _ else _) _)) => destruct c
      | |- Forall _ (trace ((let (_, _) := ?x in _) _)) => destruct x
      end ].

Lemma setproperty_effects name val s :
  Forall store_signal (trace (setproperty name val s)).
Proof.
  unfold setproperty, player_prop, assign_player_ro, assign_player_rw, pass.
  repeat trace_step.
  all: cbn; eauto 10.
Qed.

Lemma apply_events_effects events :
  forall s, Forall store_signal (trace (apply_events events s)).
Proof.
  induction events as [| [name val] rest IH]; intros s; cbn [apply_events].
  - constructor.
  - apply trace_bind; auto using setproperty_effects.
Qed.

Lemma store_signal_not_position e :
  store_signal e -> ~ In "Position" (changed_keys e).
Proof.
  destruct e as [| | | | | | [i changed inv | p]]; cbn; try tauto.
  intros (_ & k & v & -> & Hk) [Hp | []]. cbn in Hp. subst k.
  cbn in Hk. intuition discriminate.
Qed.

Section TimePos.

Lemma setproperty_time_pos val s :
  truthy val = true ->
  fits_int64 val ->
  setproperty (PStr "time-pos") val s =
    Run (if Z.eqb (micros val) (position s) then s
         else put_position (micros val) s)
        (if 4 * 10 ^ 6 <=? Z.abs (micros val - position s)
         then [Emit (Seeked (micros val))] else [])
        (Ok tt).
Proof.
  intros Ht Hf. unfold setproperty. branch. rewrite Ht.
  destruct val as [| b | z | f | str | l | l];
    try solve [cbn in Hf; contradiction]; unfold fits_int64 in Hf.
  - unfold bind, player_prop, get, lift, ret, mul_int, DBus.Int64,
      DBus.check_int64, micros, position.
    cbn -[Z.eqb Z.leb Z.pow Z.mul Z.abs Z.sub DBus.in_int64].
    rewrite Hf.
    cbn -[Z.eqb Z.leb Z.pow Z.mul Z.abs Z.sub DBus.in_int64].
    destruct (Z.eqb _ _), (Z.leb _ _); reflexivity.
  - destruct Hf as (Hnan & Hinf & Hin).
    unfold bind, player_prop, get, lift, ret, mul_int, DBus.Int64,
      DBus.check_int64, micros, position.
    cbn -[Z.eqb Z.leb Z.pow Z.mul Z.abs Z.sub DBus.in_int64 PrimFloat.mul
          float_of_Z PrimFloat.is_nan PrimFloat.is_infinity trunc_float].
    rewrite Hnan, Hinf, Hin.
    cbn -[Z.eqb Z.leb Z.pow Z.mul Z.abs Z.sub DBus.in_int64 PrimFloat.mul
          float_of_Z PrimFloat.is_nan PrimFloat.is_infinity trunc_float].
    destruct (Z.eqb _ _), (Z.leb _ _); reflexivity.
Qed.

End TimePos.

(** C1, at a run of three events from the initial state. *)
Lemma playback_status_events_witness :
  Forall pause_or_stop
    [(PStr "pause", PBool false); (PStr "stop", PBool true); (PStr "pause", PNone)]
  /\ In (status (init 0)) playback_statuses
  /\ outcome (apply_events
       [(PStr "pause", PBool false); (PStr "stop", PBool true); (PStr "pause", PNone)]
       (init 0)) = Ok tt
  /\ In (status (final (apply_events
       [(PStr "pause", PBool false); (PStr "stop", PBool true); (PStr "pause", PNone)]
       (init 0)))) playback_statuses.
Proof.
  assert (He : Forall pause_or_stop
    [(PStr "pause", PBool false); (PStr "stop", PBool true); (PStr "pause", PNone)])
    by (repeat constructor; cbn; auto).
  assert (Hs : In (status (init 0)) playback_statuses) by (cbn; auto).
  split; [exact He | split; [exact Hs |]].
  exact (proj2 (proj2 playback_status_events) _ _ He Hs).
Defined.

(** C2, as the code has it. For a number [val] that is not zero and whose
    product with one million is a signed 64-bit count, the event
    [time-pos(val)] stores as [Position] that product cut to its integer part
    (towards zero, not rounded) and changes nothing else; [Seeked] with the
    new position is emitted exactly when it is 4,000,000 microseconds or
    more away from the old one, and nothing else is emitted. Under every
    sequence of events no [PropertiesChanged] carries [Position] among its
    changed properties. *)
Theorem time_pos_event :
  (forall val s,
     truthy val = true ->
     fits_int64 val ->
     outcome (setproperty (PStr "time-pos") val s) = Ok tt
     /\ position (final (setproperty (PStr "time-pos") val s)) = micros val
     /\ final (setproperty (PStr "time-pos") val s)
        = (if Z.eqb (micros val) (position s) then s
           else put_position (micros val) s)
     /\ (4 * 10 ^ 6 <= Z.abs (micros val - position s) ->
         trace (setproperty (PStr "time-pos") val s)
         = [Emit (Seeked (micros val))])
     /\ (Z.abs (micros val - position s) < 4 * 10 ^ 6 ->
         trace (setproperty (PStr "time-pos") val s) = []))
  /\ (forall events s,
     Forall (fun e => ~ In "Position" (changed_keys e))
       (trace (apply_events events s))).
Proof.
  split.
  - intros val s Ht Hf. rewrite (setproperty_time_pos val s Ht Hf).
    cbn [outcome final trace].
    split; [reflexivity |]. split; [| split; [reflexivity |]].
    + destruct (Z.eqb_spec (micros val) (position s)) as [E | E];
        [symmetry; exact E | reflexivity].
    + split; intros H.
      * destruct (Z.leb_spec (4 * 10 ^ 6) (Z.abs (micros val - position s)));
          [reflexivity | lia].
      * destruct (Z.leb_spec (4 * 10 ^ 6) (Z.abs (micros val - position s)));
          [lia | reflexivity].
  - intros events s.
    eapply Forall_impl; [| apply apply_events_effects].
    intros e. apply store_signal_not_position.
Qed.

(** C2, at the position 12.5 s announced to the initial state. *)
Lemma time_pos_event_witness :
  truthy (PFloat 12.5%float) = true
  /\ fits_int64 (PFloat 12.5%float)
  /\ position (final (setproperty (PStr "time-pos") (PFloat 12.5%float) (init 0)))
     = micros (PFloat 12.5%float)
  /\ micros (PFloat 12.5%float) = 12500000.
Proof.
  assert (Ht : truthy (PFloat 12.5%float) = true) by reflexivity.
  assert (Hf : fits_int64 (PFloat 12.5%float))
    by (vm_compute; repeat split; reflexivity).
  split; [exact Ht | split; [exact Hf | split]].
  - exact (proj1 (proj2 (proj1 time_pos_event _ (init 0) Ht Hf))).
  - reflexivity.
Defined.

(** C2 as stated fails: the position 2^-19 s is 1.907... microseconds, and
    the code stores 1 where rounding gives 2; a position whose count of
    microseconds is beyond 64 bits is refused with [OverflowError] and not
    stored; and the notification of a stop names [Position] among the
    invalidated properties. *)
Lemma time_pos_truncates_and_stop_invalidates_position :
  position (final (setproperty (PStr "time-pos") pos_2_pow_minus_19 (init 0))) = 1
  /\ rounded_micros pos_2_pow_minus_19 = 2
  /\ setproperty (PStr "time-pos") pos_beyond_int64 (init 0)
     = Run (init 0) [] (Raise OverflowError)
  /\ trace (apply_events
       [(PStr "pause", PBool false); (PStr "stop", PBool true)] (init 0))
     = [status_changed "Playing" [];
        status_changed "Stopped" ["Metadata"; "Position"]].
Proof. repeat split; vm_compute; reflexivity. Qed.

(** ** Properties of the backend bridge *)

Lemma _sendcommand_run command s :
  _sendcommand command s = Run s (sent s command) (Ok tt).
Proof.
  unfold _sendcommand, sent, bind, get. cbn.
  destruct (bound (socket s)); [reflexivity |].
  destruct (bound (fifo s)); reflexivity.
Qed.

Lemma send_all_run commands s :
  send_all commands s = Run s (flat_map (sent s) commands) (Ok tt).
Proof.
  induction commands as [| command rest IH]; cbn [send_all flat_map].
  - reflexivity.
  - unfold bind. rewrite _sendcommand_run. cbn. now rewrite IH.
Qed.

Lemma sent_unbound s command :
  socket s = None -> fifo s = None -> sent s command = [].
Proof. unfold sent. now intros -> ->. Qed.

(** C3. [SetPosition] with the identifier of the current track reads the
    name [offset], which nothing binds: it raises [NameError] and sends no
    command, whatever the requested position; with any other identifier it
    does nothing. *)
Theorem SetPosition_runs :
  (forall s position,
     SetPosition (mpris_trackid (current_metadata s)) position s
     = Run s [] (Raise (NameError "offset")))
  /\ (forall s track_id position,
     track_id <> mpris_trackid (current_metadata s) ->
     SetPosition track_id position s = Run s [] (Ok tt)).
Proof.
  split.
  - intros s position. unfold SetPosition, bind, get, current_metadata.
    cbn -[String.eqb]. rewrite String.eqb_refl.
    unfold SetPosition_name.
    replace (String.eqb "offset" "track_id") with false by reflexivity.
    replace (String.eqb "offset" "position") with false by reflexivity.
    reflexivity.
  - intros s track_id position H. unfold SetPosition, bind, get.
    cbn -[String.eqb].
    destruct (String.eqb_spec track_id
                (mpris_trackid (Metadata (player_ro (properties s)))));
      [contradiction | reflexivity].
Qed.

(** C3, at a request for second 5 of the unknown track, the socket bound. *)
Lemma SetPosition_current_track_raises :
  SetPosition "/CurrentPlaylist/UnknownTrack" 5000000
    (set_socket (Some "/tmp/mpv.sock") (init 0))
  = Run (set_socket (Some "/tmp/mpv.sock") (init 0)) []
        (Raise (NameError "offset")).
Proof. exact (proj1 SetPosition_runs (set_socket (Some "/tmp/mpv.sock") (init 0)) 5000000). Defined.

Section SocketBind.

Variable sockpath : string.
Variable connects : nat -> bool.

Lemma attempts_S first n :
  attempts sockpath connects first (S n)
  = (Sleep 500 :: Connect sockpath (connects first)
     :: attempts sockpath connects (S first) n).
Proof. reflexivity. Qed.

(** The loop makes at most [remaining] attempts and always ends: by [break]
    with the socket kept, or by its [else] with the socket cleared. *)
Lemma connect_loop_run remaining :
  forall tries s,
  exists (n : nat) (b : bool),
    (n <= remaining)%nat
    /\ connect_loop sockpath connects remaining tries s
       = Run (if b then s else set_socket None s)
             (attempts sockpath connects tries n) (Ok b).
Proof.
  induction remaining as [| r IH]; intros tries s.
  - exists 0%nat, false. split; [lia | reflexivity].
  - cbn [connect_loop]. destruct (connects tries) eqn:E.
    + exists 1%nat, true. split; [lia |].
      unfold bind, perform, ret. cbn. now rewrite E.
    + destruct (IH (S tries) s) as (n & b & Hn & Hrun).
      exists (S n), b. split; [lia |].
      rewrite attempts_S, E. unfold bind, perform. cbn.
      rewrite Hrun. reflexivity.
Qed.

Lemma connect_loop_failing remaining :
  forall tries s,
  (forall i, (tries <= i < tries + remaining)%nat -> connects i = false) ->
  connect_loop sockpath connects remaining tries s
  = Run (set_socket None s) (attempts sockpath connects tries remaining)
        (Ok false).
Proof.
  induction remaining as [| r IH]; intros tries s H.
  - reflexivity.
  - cbn [connect_loop]. rewrite attempts_S.
    assert (E : connects tries = false) by (apply H; lia).
    rewrite E. unfold bind, perform. cbn.
    rewrite IH by (intros i Hi; apply H; lia). reflexivity.
Qed.

Lemma attempts_failing first n :
  (forall i, (first <= i < first + n)%nat -> connects i = false) ->
  attempts sockpath connects first n
  = attempts sockpath (fun _ => false) first n.
Proof.
  revert first. induction n as [| n IH]; intros first H; [reflexivity |].
  rewrite !attempts_S. rewrite (H first) by lia.
  rewrite IH by (intros i Hi; apply H; lia). reflexivity.
Qed.

End SocketBind.

Lemma sendcommand_no_connect command s :
  Forall no_connect (trace (_sendcommand command s)).
Proof.
  rewrite _sendcommand_run. unfold sent. cbn.
  destruct (bound (socket s)); [repeat constructor |].
  destruct (bound (fifo s)); repeat constructor.
Qed.

Lemma setproperty_no_connect name val s :
  Forall no_connect (trace (setproperty name val s)).
Proof.
  eapply Forall_impl; [| apply setproperty_effects].
  intros [| | | | | | [i c inv | p]]; cbn; intros H;
    solve [reflexivity | contradiction].
Qed.

Lemma read_loop_no_connect lines fin :
  forall observe_full s,
  Forall no_connect (trace (read_loop lines fin observe_full s)).
Proof.
  induction lines as [| l rest IH]; intros observe_full s.
  - destruct fin; constructor.
  - destruct l as [| | event name data]; cbn [read_loop];
      [constructor | constructor |].
    repeat first
      [ apply IH | apply sendcommand_no_connect | apply setproperty_no_connect
      | trace_step ].
Qed.

(** Events and commands leave the transport alone. *)
Section Transport.

Lemma same_transport_refl s : same_transport s s.
Proof. repeat split. Qed.

Lemma same_transport_trans s1 s2 s3 :
  same_transport s1 s2 -> same_transport s2 s3 -> same_transport s1 s3.
Proof. unfold same_transport. intuition congruence. Qed.

Lemma keeps_bind {A B} (m : M A) (k : A -> M B) :
  keeps_transport m -> (forall a, keeps_transport (k a)) ->
  keeps_transport (bind m k).
Proof.
  intros Hm Hk s. unfold bind. destruct (outcome (m s)); cbn [final].
  - eapply same_transport_trans; [apply Hm | apply Hk].
  - apply Hm.
  - apply Hm.
Qed.

Lemma keeps_still {A} (m : M A) :
  (forall s, final (m s) = s) -> keeps_transport m.
Proof. intros H s. rewrite H. apply same_transport_refl. Qed.

Lemma keeps_assign f :
  keeps_transport (modify (fun s => set_properties (f s) s)).
Proof. intros s. repeat split. Qed.

Lemma keeps_try {A} (m : M A) handler :
  keeps_transport m ->
  (forall e h, handler e = Some h -> keeps_transport h) ->
  keeps_transport (try_except m handler).
Proof.
  intros Hm Hh s. unfold try_except. destruct (outcome (m s)) as [a | e |].
  - apply Hm.
  - destruct (handler e) as [h |] eqn:E; [| apply Hm]. cbn [final].
    eapply same_transport_trans; [apply Hm | eapply Hh; exact E].
  - apply Hm.
Qed.

End Transport.

Ltac keeps_step :=
  first
    [ apply keeps_bind; [| intros ]
    | apply keeps_assign
    | apply keeps_still; reflexivity
    | match goal with
      | |- keeps_transport (if ?c then _ else _) => destruct c
      | |- keeps_transport (let (_, _) := ?x in _) => destruct x
      end ].

Lemma setproperty_keeps_transport name val :
  keeps_transport (setproperty name val).
Proof.
  unfold setproperty, player_prop, assign_player_ro, assign_player_rw, pass.
  repeat keeps_step.
Qed.

Lemma apply_events_keeps_transport events :
  keeps_transport (apply_events events).
Proof.
  induction events as [| [name val] rest IH]; cbn [apply_events].
  - apply keeps_still. reflexivity.
  - apply keeps_bind; [apply setproperty_keeps_transport | intros _; exact IH].
Qed.

Lemma sendcommand_keeps_transport command :
  keeps_transport (_sendcommand command).
Proof. apply keeps_still. intros s. now rewrite _sendcommand_run. Qed.

Lemma read_loop_keeps_transport lines fin :
  forall observe_full, keeps_transport (read_loop lines fin observe_full).
Proof.
  induction lines as [| l rest IH]; intros observe_full.
  - destruct fin; apply keeps_still; reflexivity.
  - destruct l as [| | event name data]; cbn [read_loop];
      [apply keeps_still; reflexivity | apply keeps_still; reflexivity |].
    repeat first
      [ apply IH | apply sendcommand_keeps_transport
      | apply setproperty_keeps_transport | keeps_step ].
Qed.

(** After a bind the socket is bound only under the [mpv] flag. *)
Lemma bindmpv_bound_sets_mpv connects lines fin sockpath s :
  socket (final (bindmpv connects lines fin sockpath s)) <> None ->
  mpv (final (bindmpv connects lines fin sockpath s)) = true.
Proof.
  unfold bindmpv.
  destruct (connect_loop_run sockpath connects 10 0
              (set_socket (Some sockpath) (set_mpv true s)))
    as (n & b & _ & Hrun).
  cbn -[connect_loop try_except _sendcommand read_loop attempts].
  erewrite (bind_ok (connect_loop sockpath connects 10 0)) by exact Hrun.
  cbn [final].
  set (s2 := if b then set_socket (Some sockpath) (set_mpv true s)
             else set_socket None (set_socket (Some sockpath) (set_mpv true s))).
  assert (Hmpv : mpv s2 = true) by (subst s2; destruct b; reflexivity).
  match goal with
  | |- context [try_except ?body ?h s2] =>
      assert (Hbody : keeps_transport body)
  end.
  { repeat first
      [ apply sendcommand_keeps_transport | apply read_loop_keeps_transport
      | keeps_step ]. }
  unfold try_except.
  match goal with
  | |- context [outcome (?body s2)] =>
      destruct (Hbody s2) as (_ & _ & Hm);
      destruct (outcome (body s2)) as [a | e |]
  end; try (intros _; congruence).
  destruct e; try (intros _; congruence).
  cbn. intros H. contradiction.
Qed.

Lemma bindmpv_trace connects lines fin sockpath s :
  exists n rest,
    (n <= 10)%nat
    /\ trace (bindmpv connects lines fin sockpath s)
       = (attempts sockpath connects 0 n ++ rest)%list
    /\ Forall no_connect rest.
Proof.
  unfold bindmpv.
  destruct (connect_loop_run sockpath connects 10 0
              (set_socket (Some sockpath) (set_mpv true s)))
    as (n & b & Hn & Hrun).
  exists n. eexists. split; [exact Hn |].
  cbn -[connect_loop try_except _sendcommand read_loop attempts].
  unfold bind at 1. rewrite Hrun. cbn [final trace outcome].
  split; [reflexivity |].
  apply trace_try.
  - repeat first [ apply sendcommand_no_connect | apply read_loop_no_connect
                 | trace_step ].
  - intros e k s' Hk. destruct e; try discriminate. injection Hk as <-.
    repeat trace_step.
Qed.

(** The whole run of a bind whose ten connects all fail, no pipe bound: the
    socket is cleared, nothing is sent, and the read of the cleared socket
    raises [AttributeError], which [bindmpv] does not catch. *)
Lemma bindmpv_failing connects lines fin sockpath s :
  (forall i, (i < 10)%nat -> connects i = false) ->
  fifo s = None ->
  bindmpv connects lines fin sockpath s
  = Run (set_socket None (set_socket (Some sockpath) (set_mpv true s)))
        (attempts sockpath (fun _ => false) 0 10)
        (Raise AttributeError).
Proof.
  intros Hc Hf. unfold bindmpv.
  cbn -[connect_loop try_except _sendcommand read_loop attempts].
  erewrite (bind_ok (connect_loop sockpath connects 10 0))
    by (apply connect_loop_failing; intros i Hi; apply Hc; lia).
  rewrite (attempts_failing sockpath connects 0 10)
    by (intros i Hi; apply Hc; lia).
  unfold try_except, bind, _sendcommand, get, raise, lift, pass, ret.
  cbn -[attempts]. rewrite Hf. cbn -[attempts].
  rewrite ?app_nil_r. reflexivity.
Qed.

(** C5. A socket bind connects at most ten times, each attempt half a
    second after the one before (or after the start), and nothing else it
    does is a connect. When every attempt fails, and no pipe is bound, the
    ten attempts are all it does, the socket handle is cleared and the
    property table is as before; from then on every command sent, one after
    the other, writes nothing, raises nothing and leaves the state alone, and
    no sequence of change events binds the socket again. *)
Theorem socket_bind_retries :
  forall connects lines fin sockpath s,
    (exists n rest,
       (n <= 10)%nat
       /\ trace (bindmpv connects lines fin sockpath s)
          = (attempts sockpath connects 0 n ++ rest)%list
       /\ Forall (fun e => is_connect e = false) rest)
    /\ ((forall i, (i < 10)%nat -> connects i = false) ->
        fifo s = None ->
        trace (bindmpv connects lines fin sockpath s)
        = attempts sockpath (fun _ => false) 0 10
        /\ socket (final (bindmpv connects lines fin sockpath s)) = None
        /\ fifo (final (bindmpv connects lines fin sockpath s)) = None
        /\ properties (final (bindmpv connects lines fin sockpath s))
           = properties s
        /\ (forall commands,
            send_all commands (final (bindmpv connects lines fin sockpath s))
            = Run (final (bindmpv connects lines fin sockpath s)) [] (Ok tt))
        /\ (forall events,
            socket (final (apply_events events
                             (final (bindmpv connects lines fin sockpath s))))
            = None)).
Proof.
  intros connects lines fin sockpath s. split.
  - apply bindmpv_trace.
  - intros Hc Hf. rewrite (bindmpv_failing connects lines fin sockpath s Hc Hf).
    cbn [final trace outcome]. repeat split; try assumption.
    + intros commands. rewrite send_all_run.
      replace (flat_map _ commands) with (@nil effect); [reflexivity |].
      induction commands as [| c rest IH]; [reflexivity |].
      cbn [flat_map]. rewrite <- IH.
      rewrite sent_unbound by (cbn; auto). reflexivity.
    + intros events.
      now destruct (apply_events_keeps_transport events
                      (set_socket None
                         (set_socket (Some sockpath) (set_mpv true s))))
        as (-> & _).
Qed.

(** C5, at a bind to a socket nobody listens on, from the initial state. *)
Lemma socket_bind_retries_witness :
  (forall i, (i < 10)%nat -> (fun _ : nat => false) i = false)
  /\ fifo (init 0) = None
  /\ trace (bindmpv (fun _ => false) [] EndOfStream "/tmp/mpv.sock" (init 0))
     = attempts "/tmp/mpv.sock" (fun _ => false) 0 10
  /\ socket (final (bindmpv (fun _ => false) [] EndOfStream "/tmp/mpv.sock"
                      (init 0))) = None.
Proof.
  assert (Hc : forall i, (i < 10)%nat -> (fun _ : nat => false) i = false)
    by reflexivity.
  assert (Hf : fifo (init 0) = None) by reflexivity.
  split; [exact Hc | split; [exact Hf |]].
  destruct (proj2 (socket_bind_retries (fun _ => false) [] EndOfStream
                     "/tmp/mpv.sock" (init 0)) Hc Hf) as (Ht & Hs & _).
  split; [exact Ht | exact Hs].
Defined.

Section PausePlay.

Lemma Pause_run s :
  Pause s =
    Run s (if mpv s then sent s [PStr "set_property"; PStr "pause"; PBool true]
           else if String.eqb (status s) "Paused" then []
           else sent s [PStr "pause"])
        (Ok tt).
Proof.
  unfold Pause, bind, get, status. cbn -[String.eqb _sendcommand].
  destruct (mpv s); [now rewrite _sendcommand_run |].
  destruct (String.eqb _ "Paused"); cbn -[String.eqb _sendcommand];
    [reflexivity | now rewrite _sendcommand_run].
Qed.

Lemma Play_run s :
  Play s =
    Run s (if mpv s then sent s [PStr "set_property"; PStr "pause"; PBool false]
           else if String.eqb (status s) "Playing" then []
           else sent s [PStr "pause"])
        (Ok tt).
Proof.
  unfold Play, bind, get, status. cbn -[String.eqb _sendcommand].
  destruct (mpv s); [now rewrite _sendcommand_run |].
  destruct (String.eqb _ "Playing"); cbn -[String.eqb _sendcommand];
    [reflexivity | now rewrite _sendcommand_run].
Qed.

Lemma bindfifo_opened can_open fifopath flag s :
  can_open fifopath = true ->
  bindfifo can_open fifopath flag s =
    Run (set_mpv flag (set_fifo (Some fifopath) s))
        (Sleep 1000 :: Open fifopath true
         :: sent (set_fifo (Some fifopath) s) [PStr "get_property"; PStr "volume"])
        (Ok tt).
Proof.
  intros H. unfold bindfifo. rewrite H.
  unfold try_except, bind, perform, modify, _sendcommand, get, sent. cbn.
  destruct (socket s); reflexivity.
Qed.

(** C4, as the code has it. [Pause] and [Play] choose by the [mpv] flag, not
    by the transport that is bound. With the flag set they send
    [set_property pause True] and [set_property pause False] whatever the
    status; with the flag clear [Pause] sends [pause] exactly when the
    status is not [Paused], and [Play] exactly when it is not [Playing].
    What is sent goes to the socket when one is bound, and else to the pipe,
    where the boolean is written [yes] or [no]. Binding a pipe sets the flag
    as the bind asks, clear for an mplayer and set for an mpv; a socket
    bind leaves the socket bound only with the flag set. *)
Theorem pause_play_commands :
  forall s,
    (mpv s = true ->
       Pause s = Run s (sent s [PStr "set_property"; PStr "pause"; PBool true])
                       (Ok tt)
       /\ Play s = Run s (sent s [PStr "set_property"; PStr "pause"; PBool false])
                         (Ok tt))
    /\ (mpv s = false ->
       (status s <> "Paused" -> Pause s = Run s (sent s [PStr "pause"]) (Ok tt))
       /\ (status s = "Paused" -> Pause s = Run s [] (Ok tt))
       /\ (status s <> "Playing" -> Play s = Run s (sent s [PStr "pause"]) (Ok tt))
       /\ (status s = "Playing" -> Play s = Run s [] (Ok tt)))
    /\ (socket s <> None ->
       forall command, sent s command = [SocketSend command])
    /\ (socket s = None -> fifo s <> None ->
       sent s [PStr "pause"] = [FifoWrite [PStr "pause"]]
       /\ forall b,
          sent s [PStr "set_property"; PStr "pause"; PBool b]
          = [FifoWrite [PStr "set_property"; PStr "pause";
                        if mpv s then PStr (if b then "yes" else "no")
                        else PInt (if b then 1 else 0)]])
    /\ (forall can_open fifopath flag,
       can_open fifopath = true ->
       mpv (final (bindfifo can_open fifopath flag s)) = flag
       /\ fifo (final (bindfifo can_open fifopath flag s)) = Some fifopath
       /\ socket (final (bindfifo can_open fifopath flag s)) = socket s)
    /\ (forall connects lines fin sockpath,
       socket (final (bindmpv connects lines fin sockpath s)) <> None ->
       mpv (final (bindmpv connects lines fin sockpath s)) = true).
Proof.
  intros s. split; [| split; [| split; [| split; [| split]]]].
  - intros H. rewrite Pause_run, Play_run, H. split; reflexivity.
  - intros H. rewrite Pause_run, Play_run, H.
    destruct (String.eqb_spec (status s) "Paused");
      destruct (String.eqb_spec (status s) "Playing");
      repeat split; intros; try reflexivity; contradiction.
  - intros H command. unfold sent.
    destruct (socket s); [reflexivity | contradiction].
  - intros H Hf. unfold sent. rewrite H.
    destruct (fifo s); [| contradiction]. cbn.
    split; [reflexivity |]. intros b. destruct b, (mpv s); reflexivity.
  - intros can_open fifopath flag H.
    rewrite (bindfifo_opened can_open fifopath flag s H).
    repeat split; reflexivity.
  - intros connects lines fin sockpath. apply bindmpv_bound_sets_mpv.
Qed.

End PausePlay.

(** C4, at the pipe of an mplayer bound to the initial state. *)
Lemma pause_play_commands_witness :
  mpv (set_fifo (Some (PStr "/tmp/mplayer.fifo")) (init 0)) = false
  /\ status (set_fifo (Some (PStr "/tmp/mplayer.fifo")) (init 0)) <> "Paused"
  /\ Pause (set_fifo (Some (PStr "/tmp/mplayer.fifo")) (init 0))
     = Run (set_fifo (Some (PStr "/tmp/mplayer.fifo")) (init 0))
           [FifoWrite [PStr "pause"]] (Ok tt).
Proof.
  assert (Hm : mpv (set_fifo (Some (PStr "/tmp/mplayer.fifo")) (init 0)) = false)
    by reflexivity.
  assert (Hs : status (set_fifo (Some (PStr "/tmp/mplayer.fifo")) (init 0))
               <> "Paused") by (cbn; discriminate).
  split; [exact Hm | split; [exact Hs |]].
  exact (proj1 (proj1 (proj2 (pause_play_commands _)) Hm) Hs).
Defined.

(** C4 as stated fails: with the pipe of an mpv the only bound transport
    and the status [Paused], [Pause] still writes a command, and it is
    [set_property pause yes], not [pause]. *)
Lemma Pause_on_mpv_pipe_is_unconditional :
  socket mpv_pipe_paused = None
  /\ fifo mpv_pipe_paused = Some (PStr "/tmp/mpv.fifo")
  /\ status mpv_pipe_paused = "Paused"
  /\ trace (Pause mpv_pipe_paused)
     = [FifoWrite [PStr "set_property"; PStr "pause"; PStr "yes"]]
  /\ trace (Play mpv_pipe_paused)
     = [FifoWrite [PStr "set_property"; PStr "pause"; PStr "no"]].
Proof. repeat split; vm_compute; reflexivity. Qed.

(** ** Events that are not applied *)

Lemma eq_str_false name lit : name <> PStr lit -> eq_str name lit = false.
Proof.
  destruct name as [| | | | str | |]; cbn; try reflexivity.
  intros H. destruct (String.eqb_spec str lit); [subst; contradiction | reflexivity].
Qed.

Lemma setproperty_ignored name val :
  ignored name val -> forall s, setproperty name val s = Run s [] (Ok tt).
Proof.
  intros [n v Htag | | v Hv | v Hv] s.
  - unfold setproperty.
    rewrite !eq_str_false by (apply Htag; cbn; auto 10).
    reflexivity.
  - reflexivity.
  - unfold setproperty. branch. rewrite Hv. reflexivity.
  - unfold setproperty. branch. rewrite Hv. reflexivity.
Qed.

Lemma listenstatus_catches can_open msgs s e :
  outcome (listenstatus can_open msgs s) <> Raise e.
Proof.
  unfold listenstatus, try_except.
  destruct (outcome (listen_loop can_open msgs s)) eqn:E; cbn.
  - rewrite E. discriminate.
  - discriminate.
  - rewrite E. discriminate.
Qed.

(** C6, as the code has it. Applying an event changes nothing, emits
    nothing and raises nothing when its tag is none of the five the store
    knows, when it is a volume event with the value [None], or when it is a
    time-pos or metadata event with a false value ([None], zero, empty). A
    pause or stop event is never ignored for its value: a false value, [None]
    included, stands for [False]. No exception leaves the relay loop. *)
Theorem ignored_events :
  (forall name val s,
     ignored name val -> setproperty name val s = Run s [] (Ok tt))
  /\ (forall val s,
     truthy val = false ->
     setproperty (PStr "pause") val s = setproperty (PStr "pause") (PBool false) s
     /\ setproperty (PStr "stop") val s = setproperty (PStr "stop") (PBool false) s)
  /\ (forall can_open msgs s e,
     outcome (listenstatus can_open msgs s) <> Raise e).
Proof.
  split; [| split].
  - intros name val s H. now apply setproperty_ignored.
  - intros val s H. rewrite !setproperty_pause, !setproperty_stop.
    unfold pause_status, stop_status. rewrite H. split; reflexivity.
  - apply listenstatus_catches.
Qed.

(** C6, at an event of mpv that the store does not know. *)
Lemma ignored_events_witness :
  ignored (PStr "idle-active") (PBool true)
  /\ setproperty (PStr "idle-active") (PBool true) (init 0)
     = Run (init 0) [] (Ok tt).
Proof.
  assert (H : ignored (PStr "idle-active") (PBool true)).
  { apply ignored_tag. intros tag Hin. cbn in Hin.
    repeat (destruct Hin as [<- | Hin]; [discriminate |]). contradiction. }
  split; [exact H |].
  exact (proj1 ignored_events _ _ (init 0) H).
Defined.

(** C6 as stated fails: a pause event whose value is [None] sets the status
    of a stopped player to [Playing] and notifies; a volume event whose value
    is a list raises [TypeError] out of [setproperty], and in the relay loop
    that ends the loop, so the pause event after it is never applied. *)
Lemma null_pause_applies_and_list_volume_raises :
  status (init 0) = "Stopped"
  /\ setproperty (PStr "pause") PNone (init 0)
     = Run (put_status "Playing" (init 0)) [status_changed "Playing" []] (Ok tt)
  /\ setproperty (PStr "volume") (PList []) (init 0)
     = Run (init 0) [] (Raise TypeError)
  /\ listenstatus (fun _ => true)
       [PTuple [PStr "volume"; PList []]; PTuple [PStr "pause"; PBool true]]
       (init 0)
     = Run (init 0) [] (Ok tt).
Proof. repeat split; vm_compute; reflexivity. Qed.

(** ** Properties *)

Lemma float_of_Z_100 : float_of_Z 100 = 100%float.
Proof. reflexivity. Qed.

Lemma Set_final interface_name property_name new_value s :
  final (Set_ interface_name property_name new_value s) = s.
Proof.
  unfold Set_, bind, get. cbn -[interface dict_mem String.eqb mul_int _sendcommand].
  destruct (interface (properties s) interface_name); [| reflexivity].
  destruct (dict_mem _ _); [| reflexivity].
  destruct (String.eqb _ _); [| reflexivity].
  unfold lift. cbn -[mul_int _sendcommand].
  destruct (mul_int new_value 100); try reflexivity.
  rewrite !_sendcommand_run. cbn -[_sendcommand sent].
  destruct (bound (fifo s)); [rewrite _sendcommand_run |]; reflexivity.
Qed.

Lemma Set_Volume_run new_value scaled s :
  mul_int new_value 100 = Ok scaled ->
  Set_ PLAYER_INTERFACE "Volume" new_value s
  = Run s (sent s [PStr "set_property"; PStr "volume"; scaled]
           ++ (if bound (fifo s)
               then sent s [PStr "get_property"; PStr "volume"] else []))%list
        (Ok tt).
Proof.
  intros H. unfold Set_, bind, get, lift.
  cbn -[mul_int _sendcommand sent]. rewrite H.
  cbn -[_sendcommand sent]. rewrite !_sendcommand_run.
  cbn -[_sendcommand sent].
  destruct (bound (fifo s)); [rewrite _sendcommand_run |]; reflexivity.
Qed.

(** C7. [Set] leaves the object as it was, the property table included,
    whatever the interface, the property and the value, and whether it
    returns or raises. On the player's [Volume] with a number [v] it hands
    [set_property volume v*100] to [_sendcommand], and after it
    [get_property volume] exactly when a pipe is bound; each goes to the
    socket when one is bound and else to the pipe. *)
Theorem Set_volume_command :
  (forall interface_name property_name new_value s,
     final (Set_ interface_name property_name new_value s) = s
     /\ properties (final (Set_ interface_name property_name new_value s))
        = properties s)
  /\ (forall f s,
     Set_ PLAYER_INTERFACE "Volume" (PFloat f) s
     = Run s (sent s [PStr "set_property"; PStr "volume";
                      PFloat (PrimFloat.mul f 100%float)]
              ++ (if bound (fifo s)
                  then sent s [PStr "get_property"; PStr "volume"] else []))%list
           (Ok tt))
  /\ (forall z s,
     Set_ PLAYER_INTERFACE "Volume" (PInt z) s
     = Run s (sent s [PStr "set_property"; PStr "volume"; PInt (z * 100)]
              ++ (if bound (fifo s)
                  then sent s [PStr "get_property"; PStr "volume"] else []))%list
           (Ok tt))
  /\ (forall s command query,
     (fifo s = None -> socket s <> None ->
        (sent s command
         ++ (if bound (fifo s) then sent s query else []))%list
        = [SocketSend command])
     /\ (fifo s <> None -> socket s = None ->
        (sent s command
         ++ (if bound (fifo s) then sent s query else []))%list
        = [FifoWrite (map (fifo_token (mpv s)) command);
           FifoWrite (map (fifo_token (mpv s)) query)])).
Proof.
  split; [| split; [| split]].
  - intros. rewrite Set_final. split; reflexivity.
  - intros f s. apply Set_Volume_run. reflexivity.
  - intros z s. apply Set_Volume_run. reflexivity.
  - intros s command query. unfold sent. split; intros H1 H2.
    + rewrite H1. destruct (socket s); [reflexivity | contradiction].
    + rewrite H2. destruct (fifo s); [reflexivity | contradiction].
Qed.

Lemma interface_unknown t interface_name :
  interface_name <> ROOT_INTERFACE ->
  interface_name <> PLAYER_INTERFACE ->
  interface t interface_name = None.
Proof.
  intros Hr Hp. unfold interface.
  destruct (String.eqb_spec interface_name ROOT_INTERFACE); [contradiction |].
  destruct (String.eqb_spec interface_name PLAYER_INTERFACE); [contradiction |].
  reflexivity.
Qed.

(** C8. For an interface name that is neither the root interface nor the
    player interface, [GetAll], [Get] and [Set] raise the D-Bus exception
    [com.example.UnknownInterface] naming it, and leave the object, the
    property table included, as it was. *)
Theorem unknown_interface_raises :
  forall interface_name s,
    interface_name <> ROOT_INTERFACE ->
    interface_name <> PLAYER_INTERFACE ->
    GetAll interface_name s = Run s [] (Raise (UnknownInterface interface_name))
    /\ (forall property_name,
        Get interface_name property_name s
        = Run s [] (Raise (UnknownInterface interface_name)))
    /\ (forall property_name new_value,
        Set_ interface_name property_name new_value s
        = Run s [] (Raise (UnknownInterface interface_name))).
Proof.
  intros interface_name s Hr Hp.
  assert (HG : GetAll interface_name s
               = Run s [] (Raise (UnknownInterface interface_name))).
  { unfold GetAll, bind, get. cbn -[interface UnknownInterface].
    now rewrite interface_unknown. }
  split; [exact HG | split].
  - intros property_name. unfold Get, bind. now rewrite HG.
  - intros property_name new_value. unfold Set_, bind, get.
    cbn -[interface UnknownInterface]. now rewrite interface_unknown.
Qed.

(** C8, at the track list interface, which the object does not implement. *)
Lemma unknown_interface_raises_witness :
  "org.mpris.MediaPlayer2.TrackList" <> ROOT_INTERFACE
  /\ "org.mpris.MediaPlayer2.TrackList" <> PLAYER_INTERFACE
  /\ GetAll "org.mpris.MediaPlayer2.TrackList" (init 0)
     = Run (init 0) []
           (Raise (UnknownInterface "org.mpris.MediaPlayer2.TrackList")).
Proof.
  assert (Hr : "org.mpris.MediaPlayer2.TrackList" <> ROOT_INTERFACE)
    by discriminate.
  assert (Hp : "org.mpris.MediaPlayer2.TrackList" <> PLAYER_INTERFACE)
    by discriminate.
  split; [exact Hr | split; [exact Hp |]].
  exact (proj1 (unknown_interface_raises _ (init 0) Hr Hp)).
Defined.

(** ** Track metadata *)

Section Metadata.

Lemma filter_string_forall p s : string_forall p (filter_string p s).
Proof.
  induction s as [| c rest IH]; cbn; [exact I |].
  destruct (p c) eqn:E; cbn; auto.
Qed.

Lemma alnum_not_slash c : alnum c = true -> Ascii.eqb c "/"%char = false.
Proof.
  destruct (Ascii.eqb_spec c "/"%char) as [-> | _]; [| reflexivity].
  vm_compute. discriminate.
Qed.

Lemma alnum_path_char c : alnum c = true -> DBus.path_char c = true.
Proof. unfold DBus.path_char. now intros ->. Qed.

Lemma path_tail_alnum t :
  forall prev,
  string_forall alnum t ->
  (t = EmptyString -> Ascii.eqb prev "/"%char = false) ->
  DBus.path_tail prev t = true.
Proof.
  induction t as [| c rest IH]; intros prev Hall Hlast; cbn [DBus.path_tail].
  - now rewrite Hlast.
  - destruct Hall as [Hc Hrest].
    rewrite (alnum_not_slash c Hc), (alnum_path_char c Hc). cbn.
    apply IH; [exact Hrest | intros _; now apply alnum_not_slash].
Qed.

Lemma ytid_path_valid t :
  string_forall alnum t ->
  t <> EmptyString ->
  DBus.ObjectPath ("/CurrentPlaylist/ytid/" ++ t)
  = Ok ("/CurrentPlaylist/ytid/" ++ t).
Proof.
  intros Hall Hne. unfold DBus.ObjectPath.
  replace (DBus.valid_object_path ("/CurrentPlaylist/ytid/" ++ t)) with true;
    [reflexivity |].
  symmetry. cbn -[DBus.path_tail].
  change (DBus.path_tail "/" (String "C" (String "u" (String "r" (String "r"
            (String "e" (String "n" (String "t" (String "P" (String "l"
            (String "a" (String "y" (String "l" (String "i" (String "s"
            (String "t" (String "/" (String "y" (String "t" (String "i"
            (String "d" (String "/" t))))))))))))))))))))) = true).
  cbn [DBus.path_tail]. cbn -[DBus.path_tail].
  apply path_tail_alnum; [exact Hall |].
  intros E. contradiction.
Qed.

Lemma option_Z_eqb_spec (a b : option Z) :
  reflect (a = b)
    match a, b with
    | Some x, Some y => Z.eqb x y
    | None, None => true
    | _, _ => false
    end.
Proof.
  destruct a as [x |], b as [y |]; try (constructor; congruence).
  destruct (Z.eqb_spec x y); constructor; congruence.
Qed.

Lemma option_string_eqb_spec (a b : option string) :
  reflect (a = b)
    match a, b with
    | Some x, Some y => String.eqb x y
    | None, None => true
    | _, _ => false
    end.
Proof.
  destruct a as [x |], b as [y |]; try (constructor; congruence).
  destruct (String.eqb_spec x y); constructor; congruence.
Qed.

Lemma metadata_eqb_spec a b : reflect (a = b) (metadata_eqb a b).
Proof.
  destruct a as [i1 l1 t1], b as [i2 l2 t2]. unfold metadata_eqb.
  cbn [mpris_trackid mpris_length xesam_title].
  destruct (String.eqb_spec i1 i2); cbn; [| constructor; congruence].
  destruct (option_Z_eqb_spec l1 l2); cbn; [| constructor; congruence].
  destruct (option_string_eqb_spec t1 t2); constructor; congruence.
Qed.

Lemma setproperty_metadata id title length s :
  sanitized id <> EmptyString ->
  DBus.in_int64 (length * 10 ^ 6) = true ->
  setproperty (PStr "metadata") (track id title length) s =
    if metadata_eqb (built_metadata id title length) (current_metadata s)
    then Run s [] (Ok tt)
    else Run (put_metadata (built_metadata id title length) s)
             [metadata_changed (built_metadata id title length)] (Ok tt).
Proof.
  intros Hid Hlen. unfold setproperty, track.
  repeat match goal with
  | |- context [eq_str (PStr ?a) ?b] =>
      let r := eval vm_compute in (eq_str (PStr a) b) in
      change (eq_str (PStr a) b) with r
  end.
  cbn [andb truthy negb].
  unfold bind, lift, player_prop, get, ret, assign_player_ro, modify, perform,
    pass.
  cbn -[String.append DBus.ObjectPath DBus.in_int64 Z.pow Z.mul metadata_eqb
        metadata_dict].
  fold (sanitized id).
  rewrite (ytid_path_valid (sanitized id) (filter_string_forall alnum id) Hid).
  unfold DBus.check_int64. rewrite Hlen.
  cbn -[String.append Z.pow Z.mul metadata_eqb metadata_dict].
  fold (built_metadata id title length). fold (current_metadata s).
  destruct (metadata_eqb _ _); reflexivity.
Qed.

End Metadata.

(** C9, as the code has it. For a metadata event [(id, title, length)] of
    two strings and an integer, where [id] keeps at least one character of
    [[A-Za-z0-9]] and [length * 10**6] is a signed 64-bit number, the
    metadata built has the path [/CurrentPlaylist/ytid/] followed by [id]
    without the characters outside [[A-Za-z0-9]], the length
    [length * 10**6] and the title; when it is the stored one nothing
    happens, otherwise it is stored and one [PropertiesChanged] carries it as
    [Metadata], with no invalidated property. The identifier [abc-123_X]
    becomes [abc123X]. *)
Theorem metadata_event :
  forall id title length s,
    sanitized id <> EmptyString ->
    DBus.in_int64 (length * 10 ^ 6) = true ->
    (built_metadata id title length = current_metadata s ->
       setproperty (PStr "metadata") (track id title length) s
       = Run s [] (Ok tt))
    /\ (built_metadata id title length <> current_metadata s ->
       setproperty (PStr "metadata") (track id title length) s
       = Run (put_metadata (built_metadata id title length) s)
             [metadata_changed (built_metadata id title length)] (Ok tt))
    /\ current_metadata
         (final (setproperty (PStr "metadata") (track id title length) s))
       = built_metadata id title length
    /\ mpris_trackid (built_metadata id title length)
       = "/CurrentPlaylist/ytid/" ++ filter_string alnum id
    /\ mpris_length (built_metadata id title length) = Some (length * 10 ^ 6)
    /\ sanitized "abc-123_X" = "abc123X".
Proof.
  intros id title length s Hid Hlen.
  rewrite (setproperty_metadata id title length s Hid Hlen).
  destruct (metadata_eqb_spec (built_metadata id title length)
              (current_metadata s)) as [E | E].
  - repeat split; intros; try reflexivity; try contradiction.
    cbn [final]. symmetry. exact E.
  - repeat split; intros; try reflexivity; contradiction.
Qed.

(** C9, at the identifier of the specification's example. *)
Lemma metadata_event_witness :
  sanitized "abc-123_X" <> EmptyString
  /\ DBus.in_int64 (212 * 10 ^ 6) = true
  /\ current_metadata
       (final (setproperty (PStr "metadata") (track "abc-123_X" "Title" 212)
                 (init 0)))
     = {| mpris_trackid := "/CurrentPlaylist/ytid/abc123X";
          mpris_length := Some 212000000;
          xesam_title := Some "Title" |}.
Proof.
  assert (Hid : sanitized "abc-123_X" <> EmptyString) by (vm_compute; discriminate).
  assert (Hlen : DBus.in_int64 (212 * 10 ^ 6) = true) by reflexivity.
  split; [exact Hid | split; [exact Hlen |]].
  exact (proj1 (proj2 (proj2
           (metadata_event "abc-123_X" "Title" 212 (init 0) Hid Hlen)))).
Defined.

(** C9 as stated fails: an identifier with no character of [[A-Za-z0-9]]
    gives the path [/CurrentPlaylist/ytid/], which [dbus.ObjectPath] refuses
    with [ValueError]; a length whose microseconds are beyond 64 bits is
    refused by [dbus.Int64] with [OverflowError]; neither event stores or
    emits anything. *)
Lemma metadata_event_refused :
  setproperty (PStr "metadata") (track "-_-" "Title" 212) (init 0)
  = Run (init 0) [] (Raise ValueError)
  /\ setproperty (PStr "metadata") (track "abc" "Title" (10 ^ 13)) (init 0)
     = Run (init 0) [] (Raise OverflowError).
Proof. split; vm_compute; reflexivity. Qed.

(** ** Commands of the player interface *)

(** C10. [Next], [Previous] and [Stop] hand [quit], [quit 42] and [quit 43]
    to the bound transport and change nothing. On the socket the command is
    the JSON object with the key [command] and the list of the atoms, then a
    newline; on the pipe, bound while no socket is, it is the atoms joined
    by single spaces, then a newline, where a boolean of a command is written
    [yes] or [no] for an mpv and [1] or [0] otherwise. *)
Theorem quit_commands :
  forall s float_repr,
    (socket s <> None ->
       Next s = Run s [SocketSend [PStr "quit"]] (Ok tt)
       /\ Previous s = Run s [SocketSend [PStr "quit"; PInt 42]] (Ok tt)
       /\ Stop s = Run s [SocketSend [PStr "quit"; PInt 43]] (Ok tt))
    /\ (socket s = None -> fifo s <> None ->
       Next s = Run s [FifoWrite [PStr "quit"]] (Ok tt)
       /\ Previous s = Run s [FifoWrite [PStr "quit"; PInt 42]] (Ok tt)
       /\ Stop s = Run s [FifoWrite [PStr "quit"; PInt 43]] (Ok tt))
    /\ (Wire.socket_wire float_repr [PStr "quit"]
        = command_line (quoted "quit")
       /\ Wire.socket_wire float_repr [PStr "quit"; PInt 42]
          = command_line (quoted "quit" ++ ", 42")
       /\ Wire.socket_wire float_repr [PStr "quit"; PInt 43]
          = command_line (quoted "quit" ++ ", 43"))
    /\ (Wire.fifo_wire float_repr [PStr "quit"] = Some ("quit" ++ newline)
       /\ Wire.fifo_wire float_repr [PStr "quit"; PInt 42]
          = Some ("quit 42" ++ newline)
       /\ Wire.fifo_wire float_repr [PStr "quit"; PInt 43]
          = Some ("quit 43" ++ newline))
    /\ (forall b,
       Wire.fifo_wire float_repr
         (map (fifo_token true) [PStr "set_property"; PStr "pause"; PBool b])
       = Some ("set_property pause " ++ (if b then "yes" else "no") ++ newline)
       /\ Wire.fifo_wire float_repr
            (map (fifo_token false) [PStr "set_property"; PStr "pause"; PBool b])
          = Some ("set_property pause " ++ (if b then "1" else "0") ++ newline)
       /\ Wire.socket_wire float_repr
            [PStr "set_property"; PStr "pause"; PBool b]
          = command_line (quoted "set_property" ++ ", " ++ quoted "pause" ++ ", "
                          ++ (if b then "true" else "false"))).
Proof.
  intros s float_repr. split; [| split; [| split; [| split]]].
  - intros H. unfold Next, Previous, Stop. rewrite !_sendcommand_run.
    unfold sent. destruct (socket s); [| contradiction].
    repeat split; reflexivity.
  - intros H Hf. unfold Next, Previous, Stop. rewrite !_sendcommand_run.
    unfold sent. rewrite H. destruct (fifo s); [| contradiction].
    repeat split; reflexivity.
  - repeat split; reflexivity.
  - repeat split; reflexivity.
  - intros b. destruct b; repeat split; reflexivity.
Qed.

(** C10, at a socket bound to the initial state. *)
Lemma quit_commands_witness :
  socket (set_socket (Some "/tmp/mpv.sock") (init 0)) <> None
  /\ trace (Previous (set_socket (Some "/tmp/mpv.sock") (init 0)))
     = [SocketSend [PStr "quit"; PInt 42]].
Proof.
  assert (H : socket (set_socket (Some "/tmp/mpv.sock") (init 0)) <> None)
    by discriminate.
  split; [exact H |].
  exact (f_equal trace
           (proj1 (proj2 (proj1 (quit_commands _ (fun _ => EmptyString)) H)))).
Defined.

(** C7, at a volume of one half set while only a pipe is bound. *)
Lemma Set_volume_command_witness :
  fifo (set_fifo (Some (PStr "/tmp/mplayer.fifo")) (init 0)) <> None
  /\ socket (set_fifo (Some (PStr "/tmp/mplayer.fifo")) (init 0)) = None
  /\ Set_ PLAYER_INTERFACE "Volume" (PFloat 0.5%float)
       (set_fifo (Some (PStr "/tmp/mplayer.fifo")) (init 0))
     = Run (set_fifo (Some (PStr "/tmp/mplayer.fifo")) (init 0))
           [FifoWrite [PStr "set_property"; PStr "volume"; PFloat 50%float];
            FifoWrite [PStr "get_property"; PStr "volume"]]
           (Ok tt).
Proof.
  assert (Hf : fifo (set_fifo (Some (PStr "/tmp/mplayer.fifo")) (init 0)) <> None)
    by discriminate.
  assert (Hs : socket (set_fifo (Some (PStr "/tmp/mplayer.fifo")) (init 0)) = None)
    by reflexivity.
  split; [exact Hf | split; [exact Hs |]].
  exact (proj1 (proj2 Set_volume_command) 0.5%float
           (set_fifo (Some (PStr "/tmp/mplayer.fifo")) (init 0))).
Defined.

(** ** Further properties of the store and of the bridge *)

(** The integer part that [trunc_float] takes lies towards zero: for a float
    of mantissa [m] and negative exponent [e] it is the quotient of [m] by
    [2 ^ (- e)], with the sign of the float. *)
Lemma trunc_float_toward_zero f sign m e :
  Prim2SF f = S754_finite sign m e ->
  e < 0 ->
  Z.abs (trunc_float f) * 2 ^ (- e) <= Z.pos m
  < (Z.abs (trunc_float f) + 1) * 2 ^ (- e).
Proof.
  intros H He. unfold trunc_float. rewrite H.
  destruct (Z.leb_spec 0 e) as [Hle | _]; [lia |].
  assert (Hd : 0 < 2 ^ (- e)) by (apply Z.pow_pos_nonneg; lia).
  assert (Hq : 0 <= Z.pos m / 2 ^ (- e)) by (apply Z.div_pos; lia).
  pose proof (Z.div_mod (Z.pos m) (2 ^ (- e)) ltac:(lia)) as Hdm.
  pose proof (Z.mod_pos_bound (Z.pos m) (2 ^ (- e)) Hd) as Hm.
  replace (Z.abs (if sign then - (Z.pos m / 2 ^ (- e)) else Z.pos m / 2 ^ (- e)))
    with (Z.pos m / 2 ^ (- e)) by (destruct sign; lia).
  nia.
Qed.

(** For an [int] the stored position is the exact product, which is also
    the rounded one. *)
Lemma micros_of_int z : micros (PInt z) = rounded_micros (PInt z).
Proof. reflexivity. Qed.

Lemma GetAll_player s :
  GetAll PLAYER_INTERFACE s
  = Run s []
      (Ok (read_only (player_partitions (properties s))
           ++ read_write (player_partitions (properties s)))%list).
Proof. reflexivity. Qed.

(** X1. A snapshot of the player interface holds every read-only and every
    read-write property, in the order of the table, with the values the
    table holds; [Get] reads the same values, so what the events stored last
    is what a caller sees. *)
Theorem player_snapshot :
  forall s,
    GetAll PLAYER_INTERFACE s
    = Run s []
        (Ok (read_only (player_partitions (properties s))
             ++ read_write (player_partitions (properties s)))%list)
    /\ map fst (read_only (player_partitions (properties s))
                ++ read_write (player_partitions (properties s)))%list
       = ["PlaybackStatus"; "Metadata"; "Position"; "MinimumRate";
          "MaximumRate"; "CanGoNext"; "CanGoPrevious"; "CanPlay"; "CanPause";
          "CanSeek"; "CanControl"; "Rate"; "Volume"]
    /\ Get PLAYER_INTERFACE "PlaybackStatus" s
       = Run s [] (Ok (DBus.Basic (DBus.String_ (status s))))
    /\ Get PLAYER_INTERFACE "Position" s
       = Run s [] (Ok (DBus.Basic (DBus.Int64_ (position s))))
    /\ Get PLAYER_INTERFACE "Metadata" s
       = Run s [] (Ok (DBus.Dictionary (metadata_dict (current_metadata s))))
    /\ Get PLAYER_INTERFACE "Volume" s
       = Run s [] (Ok (DBus.Basic (DBus.Double (volume s)))).
Proof. intros s. repeat split; reflexivity. Qed.

Lemma setproperty_volume val f s :
  is_None val = false ->
  float_ val = Ok f ->
  setproperty (PStr "volume") val s =
    if PrimFloat.eqb (PrimFloat.div f 100) (volume s) then Run s [] (Ok tt)
    else Run (put_volume (PrimFloat.div f 100) s)
           [Emit (PropertiesChanged PLAYER_INTERFACE
              [("Volume", DBus.Basic (DBus.Double (PrimFloat.div f 100)))] [])]
           (Ok tt).
Proof.
  intros Hn Hf. unfold setproperty.
  repeat match goal with
  | |- context [eq_str (PStr ?a) ?b] =>
      let r := eval vm_compute in (eq_str (PStr a) b) in
      change (eq_str (PStr a) b) with r
  end.
  rewrite Hn. cbn [andb negb].
  unfold bind, get, lift. cbn [outcome final trace app]. rewrite Hf.
  cbn [outcome final trace app]. fold (volume s).
  destruct (PrimFloat.eqb _ _); reflexivity.
Qed.



(** X3. [PlayPause] sends [cycle pause] under the [mpv] flag and [pause]
    otherwise; [Seek] sends [seek] with the offset in seconds; [OpenUri],
    [Raise] and [Quit] do nothing. None of them changes the object. *)
Theorem other_commands :
  forall s,
    PlayPause s
    = Run s (sent s (if mpv s then [PStr "cycle"; PStr "pause"]
                     else [PStr "pause"])) (Ok tt)
    /\ (forall offset seconds,
        truediv offset (10 ^ 6) = Ok seconds ->
        Seek offset s = Run s (sent s [PStr "seek"; PFloat seconds]) (Ok tt))
    /\ (forall uri, OpenUri uri s = Run s [] (Ok tt))
    /\ Raise_ s = Run s [] (Ok tt)
    /\ Quit s = Run s [] (Ok tt).
Proof.
  intros s. split; [| split; [| repeat split]].
  - unfold PlayPause, bind, get. cbn -[_sendcommand].
    destruct (mpv s); now rewrite _sendcommand_run.
  - intros offset seconds H. unfold Seek, bind, lift.
    cbn -[_sendcommand truediv Z.pow]. rewrite H.
    cbn -[_sendcommand]. now rewrite _sendcommand_run.
Qed.

(** X3, at a seek of one second and a half forward, the socket bound. *)
Lemma other_commands_witness :
  truediv 1500000 (10 ^ 6) = Ok 1.5%float
  /\ Seek 1500000 (set_socket (Some "/tmp/mpv.sock") (init 0))
     = Run (set_socket (Some "/tmp/mpv.sock") (init 0))
           [SocketSend [PStr "seek"; PFloat 1.5%float]] (Ok tt).
Proof.
  assert (H : truediv 1500000 (10 ^ 6) = Ok 1.5%float) by reflexivity.
  split; [exact H |].
  exact (proj1 (proj2 (other_commands
                         (set_socket (Some "/tmp/mpv.sock") (init 0))))
           1500000 1.5%float H).
Defined.

(** ** Events as a conversion and a commit *)

Lemma bind_lift_run {A B} (r : result A) (k : A -> M B) s :
  bind (lift r) k s =
    match r with
    | Ok a => k a s
    | Raise e => Run s [] (Raise e)
    | Unsupported => Run s [] Unsupported
    end.
Proof.
  unfold bind, lift. cbn. destruct r; cbn; [apply run_eta | reflexivity ..].
Qed.

Lemma bind_get_run {B} (k : state -> M B) s : bind get k s = k s s.
Proof. unfold bind, get. cbn. apply run_eta. Qed.

Lemma bind_player_prop_run {A B} (f : player_read_only -> A) (k : A -> M B) s :
  bind (player_prop f) k s = k (f (player_ro (properties s))) s.
Proof. unfold bind, player_prop, get, ret. cbn. apply run_eta. Qed.

(** [setproperty] first converts the value, whatever the store holds, and
    then commits the change. *)
Lemma setproperty_factors name val s :
  setproperty name val s = bind (lift (resolve name val)) commit s.
Proof.
  rewrite bind_lift_run. unfold setproperty, resolve.
  destruct (eq_str name "pause");
    [now rewrite bind_player_prop_run; cbn [commit]; rewrite bind_get_run |].
  destruct (eq_str name "stop");
    [now rewrite bind_player_prop_run; cbn [commit]; rewrite bind_get_run |].
  destruct (eq_str name "volume" && negb (is_None val)).
  { rewrite bind_get_run, bind_lift_run.
    destruct (float_ val); cbn [rbind commit]; [| reflexivity ..].
    now rewrite bind_get_run. }
  destruct (eq_str name "time-pos" && truthy val).
  { rewrite bind_player_prop_run, bind_lift_run.
    destruct (mul_int val (10 ^ 6)) as [scaled | |]; cbn [rbind]; try reflexivity.
    rewrite bind_lift_run.
    destruct (DBus.Int64 scaled); cbn [rbind commit]; [| reflexivity ..].
    now rewrite bind_get_run. }
  destruct (eq_str name "metadata" && truthy val); [| reflexivity].
  rewrite bind_lift_run.
  destruct (unpack3 val) as [[[trackid title] length] | |]; cbn [rbind];
    try reflexivity.
  rewrite bind_lift_run.
  destruct (re_sub_non_alnum trackid) as [t | |]; cbn [rbind]; try reflexivity.
  rewrite bind_player_prop_run, bind_lift_run.
  destruct (DBus.ObjectPath _) as [path | |]; cbn [rbind]; try reflexivity.
  rewrite bind_lift_run.
  destruct (mul_int length (10 ^ 6)) as [scaled | |]; cbn [rbind]; try reflexivity.
  rewrite bind_lift_run.
  destruct (DBus.Int64 scaled) as [len | |]; cbn [rbind]; try reflexivity.
  rewrite bind_lift_run.
  destruct (DBus.String title) as [ttl | |]; cbn [rbind commit]; [| reflexivity ..].
  now rewrite bind_get_run.
Qed.

Lemma setproperty_resolved name val c s :
  resolve name val = Ok c -> setproperty name val s = commit c s.
Proof. intros H. now rewrite setproperty_factors, bind_lift_run, H. Qed.

Lemma setproperty_raised name val e s :
  resolve name val = Raise e -> setproperty name val s = Run s [] (Raise e).
Proof. intros H. now rewrite setproperty_factors, bind_lift_run, H. Qed.

Section Commit.

Lemma commit_status_run newval invalidated s :
  commit (NewStatus newval invalidated) s =
    if String.eqb newval (status s) then Run s [] (Ok tt)
    else Run (put_status newval s) [status_changed newval invalidated] (Ok tt).
Proof.
  cbn [commit]. rewrite bind_get_run.
  destruct (String.eqb newval (status s)); reflexivity.
Qed.

Lemma commit_volume_run newval s :
  commit (NewVolume newval) s =
    if PrimFloat.eqb newval (volume s) then Run s [] (Ok tt)
    else Run (put_volume newval s)
           [Emit (PropertiesChanged PLAYER_INTERFACE
              [("Volume", DBus.Basic (DBus.Double newval))] [])] (Ok tt).
Proof.
  cbn [commit]. rewrite bind_get_run.
  destruct (PrimFloat.eqb newval (volume s)); reflexivity.
Qed.

Lemma commit_position_run newval s :
  commit (NewPosition newval) s =
    Run (if Z.eqb newval (position s) then s else put_position newval s)
        (if 4 * 10 ^ 6 <=? Z.abs (newval - position s)
         then [Emit (Seeked newval)] else [])
        (Ok tt).
Proof.
  cbn [commit]. rewrite bind_get_run.
  destruct (Z.eqb newval (position s)),
    (4 * 10 ^ 6 <=? Z.abs (newval - position s)); reflexivity.
Qed.

Lemma commit_metadata_run newval s :
  commit (NewMetadata newval) s =
    if metadata_eqb newval (current_metadata s) then Run s [] (Ok tt)
    else Run (put_metadata newval s) [metadata_changed newval] (Ok tt).
Proof.
  cbn [commit]. rewrite bind_get_run.
  destruct (metadata_eqb newval (current_metadata s)); reflexivity.
Qed.

Lemma commit_returns c s : outcome (commit c s) = Ok tt.
Proof.
  destruct c as [| newval inv | newval | newval | newval].
  - reflexivity.
  - rewrite commit_status_run. now destruct (String.eqb _ _).
  - rewrite commit_volume_run. now destruct (PrimFloat.eqb _ _).
  - now rewrite commit_position_run.
  - rewrite commit_metadata_run. now destruct (metadata_eqb _ _).
Qed.

Lemma float_eqb_refl f : PrimFloat.is_nan f = false -> PrimFloat.eqb f f = true.
Proof. unfold PrimFloat.is_nan. now destruct (PrimFloat.eqb f f). Qed.

Lemma metadata_eqb_refl m : metadata_eqb m m = true.
Proof. now destruct (metadata_eqb_spec m m). Qed.

(** A change committed once more does nothing. *)
Lemma commit_twice c s :
  reflexive_change c ->
  commit c (final (commit c s)) = Run (final (commit c s)) [] (Ok tt).
Proof.
  destruct c as [| newval inv | newval | newval | newval]; cbn [reflexive_change];
    intros Hc.
  - reflexivity.
  - rewrite (commit_status_run newval inv s).
    destruct (String.eqb newval (status s)) eqn:E; cbn [final];
      rewrite commit_status_run.
    + now rewrite E.
    + replace (status (put_status newval s)) with newval by reflexivity.
      now rewrite String.eqb_refl.
  - rewrite (commit_volume_run newval s).
    destruct (PrimFloat.eqb newval (volume s)) eqn:E; cbn [final];
      rewrite commit_volume_run.
    + now rewrite E.
    + replace (volume (put_volume newval s)) with newval by reflexivity.
      now rewrite float_eqb_refl.
  - rewrite (commit_position_run newval s). cbn [final].
    rewrite commit_position_run.
    assert (Hp : position (if Z.eqb newval (position s) then s
                           else put_position newval s) = newval).
    { destruct (Z.eqb_spec newval (position s)); [congruence | reflexivity]. }
    rewrite Hp, Z.eqb_refl, Z.sub_diag. reflexivity.
  - rewrite (commit_metadata_run newval s).
    destruct (metadata_eqb newval (current_metadata s)) eqn:E; cbn [final];
      rewrite commit_metadata_run.
    + now rewrite E.
    + replace (current_metadata (put_metadata newval s)) with newval
        by reflexivity.
      now rewrite metadata_eqb_refl.
Qed.

Lemma commit_constants c s :
  constants_of (final (commit c s)) = constants_of s.
Proof.
  destruct c as [| newval inv | newval | newval | newval].
  - reflexivity.
  - rewrite commit_status_run. now destruct (String.eqb _ _).
  - rewrite commit_volume_run. now destruct (PrimFloat.eqb _ _).
  - rewrite commit_position_run. now destruct (Z.eqb _ _).
  - rewrite commit_metadata_run. now destruct (metadata_eqb _ _).
Qed.

Lemma commit_typed c s :
  typed_change c -> well_typed s -> well_typed (final (commit c s)).
Proof.
  intros Hc (Hs & Hp & Hm & Hl).
  destruct c as [| newval inv | newval | newval | newval]; cbn [typed_change] in Hc.
  - repeat split; assumption.
  - rewrite commit_status_run. destruct (String.eqb _ _); cbn [final];
      repeat split; assumption.
  - rewrite commit_volume_run. destruct (PrimFloat.eqb _ _); cbn [final];
      repeat split; assumption.
  - rewrite commit_position_run. cbn [final].
    destruct (Z.eqb _ _); repeat split; assumption.
  - rewrite commit_metadata_run. destruct Hc as [Hc1 Hc2].
    destruct (metadata_eqb _ _); cbn [final]; repeat split; assumption.
Qed.

End Commit.

Ltac resolve_cases H :=
  unfold resolve in H;
  repeat match type of H with
  | (if ?c then _ else _) = _ => destruct c eqn:?
  | rbind ?r _ = _ => destruct r eqn:?; cbn [rbind] in H
  | (let '(_, _) := ?x in _) = _ => destruct x
  end.

Section Conversions.

Lemma float_raises v e : float_ v = Raise e -> conversion_error e.
Proof.
  unfold conversion_error, float_.
  destruct v as [| b | z | f | str | l | l]; try discriminate;
    try (intros [= <-]; now auto).
  destruct (PrimFloat.is_infinity (float_of_Z z));
    [intros [= <-]; auto | discriminate].
Qed.

Lemma mul_int_raises v n e : mul_int v n = Raise e -> conversion_error e.
Proof.
  unfold conversion_error. destruct v; cbn; try discriminate.
  intros [= <-]; auto.
Qed.

Lemma check_int64_in_range z r : DBus.check_int64 z = Ok r -> DBus.in_int64 r = true.
Proof.
  unfold DBus.check_int64. destruct (DBus.in_int64 z) eqn:E; [| discriminate].
  now intros [= <-].
Qed.

Lemma check_int64_raises z e : DBus.check_int64 z = Raise e -> conversion_error e.
Proof.
  unfold DBus.check_int64, conversion_error.
  destruct (DBus.in_int64 z); [discriminate | intros [= <-]; auto].
Qed.

Lemma Int64_raises v e : DBus.Int64 v = Raise e -> conversion_error e.
Proof.
  unfold DBus.Int64. destruct v as [| b | z | f | str | l | l];
    try discriminate;
    try (intros [= <-]; unfold conversion_error; now auto);
    try apply check_int64_raises.
  destruct (PrimFloat.is_nan f); [intros [= <-]; unfold conversion_error; auto |].
  destruct (PrimFloat.is_infinity f);
    [intros [= <-]; unfold conversion_error; auto | apply check_int64_raises].
Qed.

Lemma Int64_in_range v z : DBus.Int64 v = Ok z -> DBus.in_int64 z = true.
Proof.
  unfold DBus.Int64. destruct v as [| b | z0 | f | str | l | l];
    try discriminate; try apply check_int64_in_range.
  - intros [= <-]. now destruct b.
  - destruct (PrimFloat.is_nan f); [discriminate |].
    destruct (PrimFloat.is_infinity f);
      [discriminate | apply check_int64_in_range].
Qed.

Lemma ObjectPath_valid p q :
  DBus.ObjectPath p = Ok q -> DBus.valid_object_path q = true.
Proof.
  unfold DBus.ObjectPath. destruct (DBus.valid_object_path p) eqn:E;
    [| discriminate].
  now intros [= <-].
Qed.

Lemma ObjectPath_raises p e : DBus.ObjectPath p = Raise e -> conversion_error e.
Proof.
  unfold DBus.ObjectPath, conversion_error.
  destruct (DBus.valid_object_path p); [discriminate | intros [= <-]; auto].
Qed.

Lemma String_raises v e : DBus.String v = Raise e -> conversion_error e.
Proof. destruct v; cbn; discriminate. Qed.

Lemma unpack3_raises v e : unpack3 v = Raise e -> conversion_error e.
Proof.
  unfold conversion_error. destruct v as [| | | | str | l | l]; cbn;
    try (intros [= <-]; now auto).
  - destruct (chars str) as [| a [| b [| c [| d ?]]]];
      try (intros [= <-]; now auto); discriminate.
  - destruct l as [| a [| b [| c [| d ?]]]];
      try (intros [= <-]; now auto); discriminate.
  - destruct l as [| a [| b [| c [| d ?]]]];
      try (intros [= <-]; now auto); discriminate.
Qed.

Lemma re_sub_raises v e : re_sub_non_alnum v = Raise e -> conversion_error e.
Proof.
  unfold conversion_error. destruct v; cbn; intros [= <-]; auto.
Qed.

Lemma resolve_raises name val e :
  resolve name val = Raise e -> conversion_error e.
Proof.
  intros H. resolve_cases H; try discriminate; injection H as <-;
    eauto using float_raises, mul_int_raises, Int64_raises, ObjectPath_raises,
      String_raises, unpack3_raises, re_sub_raises.
Qed.

Lemma resolve_typed name val c : resolve name val = Ok c -> typed_change c.
Proof.
  intros H. resolve_cases H; try discriminate; injection H as <-;
    cbn [typed_change mpris_trackid mpris_length].
  - apply pause_status_in.
  - apply stop_status_in.
  - exact I.
  - eauto using Int64_in_range.
  - split; [eauto using ObjectPath_valid |].
    intros l [= <-]. eauto using Int64_in_range.
  - exact I.
Qed.

End Conversions.

(** ** Events: failure, repetition, invariants *)

Lemma eq_str_true name lit : eq_str name lit = true -> name = PStr lit.
Proof.
  destruct name as [| | | | str | |]; cbn; try discriminate.
  intros H. apply String.eqb_eq in H. now subst.
Qed.

Lemma setproperty_outcome name val s :
  outcome (setproperty name val s)
  = match resolve name val with
    | Ok _ => Ok tt
    | Raise e => Raise e
    | Unsupported => Unsupported
    end.
Proof.
  rewrite setproperty_factors, bind_lift_run.
  destruct (resolve name val); [apply commit_returns | reflexivity ..].
Qed.

Lemma resolve_volume name val newval :
  resolve name val = Ok (NewVolume newval) ->
  name = PStr "volume"
  /\ exists f, float_ val = Ok f /\ newval = PrimFloat.div f 100%float.
Proof.
  intros H. resolve_cases H; try discriminate.
  injection H as <-.
  match goal with
  | E : eq_str name "volume" && _ = true |- _ =>
      apply andb_prop in E; destruct E as [E _];
      apply eq_str_true in E
  end.
  eauto.
Qed.

(** X4. An event that raises raises [TypeError], [ValueError] or
    [OverflowError], has stored nothing and emitted nothing, and raises the
    same whatever the store holds: whether an event is accepted depends on
    the event alone. *)
Theorem event_failure :
  forall name val s e,
    outcome (setproperty name val s) = Raise e ->
    conversion_error e
    /\ setproperty name val s = Run s [] (Raise e)
    /\ forall s', setproperty name val s' = Run s' [] (Raise e).
Proof.
  intros name val s e H. rewrite setproperty_outcome in H.
  destruct (resolve name val) as [c | e' |] eqn:E; try discriminate.
  injection H as ->.
  split; [eapply resolve_raises; exact E |].
  split; [| intros s']; now apply setproperty_raised.
Qed.

(** X4, at a volume event whose value is an empty list. *)
Lemma event_failure_witness :
  outcome (setproperty (PStr "volume") (PList []) (init 0)) = Raise TypeError
  /\ setproperty (PStr "volume") (PList []) (init 0)
     = Run (init 0) [] (Raise TypeError).
Proof.
  assert (H : outcome (setproperty (PStr "volume") (PList []) (init 0))
              = Raise TypeError) by reflexivity.
  split; [exact H |].
  exact (proj1 (proj2 (event_failure _ _ _ _ H))).
Defined.

(** X5. An event applied a second time, right after it was applied with
    success, stores nothing and emits nothing: no notification and no
    [Seeked] is repeated. The one exception is a volume that is not a
    number, which differs from itself: it is stored and notified at every
    application. *)
Theorem event_applied_twice :
  (forall name val s,
     outcome (setproperty name val s) = Ok tt ->
     (forall f, name = PStr "volume" -> float_ val = Ok f ->
        PrimFloat.is_nan (PrimFloat.div f 100%float) = false) ->
     setproperty name val (final (setproperty name val s))
     = Run (final (setproperty name val s)) [] (Ok tt))
  /\ (forall val f s,
     is_None val = false ->
     float_ val = Ok f ->
     PrimFloat.is_nan (PrimFloat.div f 100%float) = true ->
     setproperty (PStr "volume") val s
     = Run (put_volume (PrimFloat.div f 100%float) s)
         [Emit (PropertiesChanged PLAYER_INTERFACE
            [("Volume", DBus.Basic (DBus.Double (PrimFloat.div f 100%float)))]
            [])]
         (Ok tt)).
Proof.
  split.
  - intros name val s Hok Hnan. rewrite setproperty_outcome in Hok.
    destruct (resolve name val) as [c | |] eqn:E; try discriminate.
    rewrite !(setproperty_resolved name val c) by exact E.
    apply commit_twice.
    destruct c; cbn [reflexive_change]; try exact I.
    destruct (resolve_volume name val newval E) as (Hn & f & Hf & ->).
    now apply (Hnan f).
  - intros val f s Hn Hf Hnan.
    rewrite (setproperty_volume val f s Hn Hf).
    replace (PrimFloat.eqb (PrimFloat.div f 100) (volume s)) with false;
      [reflexivity |].
    symmetry. unfold PrimFloat.is_nan in Hnan.
    apply negb_true_iff in Hnan.
    destruct (PrimFloat.eqb (PrimFloat.div f 100) (volume s)) eqn:E;
      [| reflexivity].
    exfalso. revert Hnan E. generalize (PrimFloat.div f 100) (volume s).
    intros x y Hx Hxy.
    rewrite FloatAxioms.eqb_spec in Hx, Hxy.
    unfold SFeqb in Hx, Hxy.
    destruct (Prim2SF x), (Prim2SF y); cbn in Hx, Hxy; try discriminate.
    all: try (destruct s0; discriminate).
    all: destruct s0, s1; cbn in Hx, Hxy; try discriminate.
    all: rewrite ?Z.compare_refl, ?Pos.compare_refl in Hx; discriminate.
Qed.

Section Invariants.

Variable P : state -> Prop.

Lemma invariant_bind {A B} (m : M A) (k : A -> M B) :
  invariant P m -> (forall a, invariant P (k a)) -> invariant P (bind m k).
Proof.
  intros Hm Hk s Hs. unfold bind.
  destruct (outcome (m s)); cbn [final]; [apply Hk |..]; now apply Hm.
Qed.

Lemma invariant_still {A} (m : M A) :
  (forall s, final (m s) = s) -> invariant P m.
Proof. intros H s Hs. now rewrite H. Qed.

Lemma invariant_modify f :
  (forall s, P s -> P (f s)) -> invariant P (modify f).
Proof. intros H s Hs. now apply H. Qed.

Lemma invariant_try {A} (m : M A) handler :
  invariant P m ->
  (forall e h, handler e = Some h -> invariant P h) ->
  invariant P (try_except m handler).
Proof.
  intros Hm Hh s Hs. unfold try_except.
  destruct (outcome (m s)) as [a | e |]; [now apply Hm | | now apply Hm].
  destruct (handler e) as [h |] eqn:E; [| now apply Hm]. cbn [final].
  eapply Hh; [exact E | now apply Hm].
Qed.

Lemma invariant_sendcommand command : invariant P (_sendcommand command).
Proof. apply invariant_still. intros s. now rewrite _sendcommand_run. Qed.

Hypothesis P_commit : forall c s, typed_change c -> P s -> P (final (commit c s)).

Lemma invariant_setproperty name val : invariant P (setproperty name val).
Proof.
  intros s Hs. rewrite setproperty_factors, bind_lift_run.
  destruct (resolve name val) as [c | e |] eqn:E; [| exact Hs ..].
  apply P_commit; [eapply resolve_typed; exact E | exact Hs].
Qed.

Lemma invariant_apply_events events : invariant P (apply_events events).
Proof.
  induction events as [| [name val] rest IH]; cbn [apply_events].
  - apply invariant_still. reflexivity.
  - apply invariant_bind; [apply invariant_setproperty | intros _; exact IH].
Qed.

Lemma invariant_read_loop lines fin :
  forall observe_full, invariant P (read_loop lines fin observe_full).
Proof.
  induction lines as [| l rest IH]; intros observe_full.
  - destruct fin; apply invariant_still; reflexivity.
  - destruct l as [| | event name data]; cbn [read_loop];
      [apply invariant_still; reflexivity | apply invariant_still; reflexivity |].
    repeat first
      [ apply IH | apply invariant_sendcommand | apply invariant_setproperty
      | apply invariant_bind; [| intros ]
      | apply invariant_still; reflexivity
      | match goal with
        | |- invariant _ (if ?c then _ else _) => destruct c
        end ].
Qed.

Hypothesis P_socket : forall v s, P s -> P (set_socket v s).
Hypothesis P_fifo : forall v s, P s -> P (set_fifo v s).
Hypothesis P_mpv : forall v s, P s -> P (set_mpv v s).

Lemma invariant_connect_loop sockpath connects remaining :
  forall tries, invariant P (connect_loop sockpath connects remaining tries).
Proof.
  induction remaining as [| r IH]; intros tries; cbn [connect_loop].
  - apply invariant_bind; [apply invariant_modify; apply P_socket |].
    intros _. apply invariant_still. reflexivity.
  - repeat (apply invariant_bind; [apply invariant_still; reflexivity | intros _]).
    destruct (connects tries); [apply invariant_still; reflexivity | apply IH].
Qed.

Lemma invariant_bindmpv connects lines fin sockpath :
  invariant P (bindmpv connects lines fin sockpath).
Proof.
  unfold bindmpv.
  apply invariant_bind; [apply invariant_modify; apply P_mpv | intros _].
  apply invariant_bind; [apply invariant_modify; apply P_socket | intros _].
  apply invariant_bind; [apply invariant_connect_loop | intros _].
  apply invariant_try.
  - apply invariant_bind; [apply invariant_sendcommand | intros _].
    apply invariant_bind; [apply invariant_still; reflexivity | intros s0].
    apply invariant_bind; [| intros _; apply invariant_read_loop].
    destruct (bound (socket s0)); apply invariant_still; reflexivity.
  - intros e h Hh. destruct e; try discriminate. injection Hh as <-.
    apply invariant_bind; [apply invariant_modify; apply P_socket | intros _].
    apply invariant_modify. apply P_mpv.
Qed.

Lemma invariant_bindfifo can_open fifopath flag :
  invariant P (bindfifo can_open fifopath flag).
Proof.
  unfold bindfifo.
  apply invariant_bind; [apply invariant_still; reflexivity | intros _].
  apply invariant_try.
  - apply invariant_bind; [apply invariant_still; reflexivity | intros _].
    apply invariant_bind;
      [destruct (can_open fifopath);
         [apply invariant_modify; apply P_fifo
         | apply invariant_still; reflexivity]
      | intros _].
    apply invariant_bind; [apply invariant_sendcommand | intros _].
    apply invariant_modify. apply P_mpv.
  - intros e h [= <-]. apply invariant_modify. apply P_fifo.
Qed.

Lemma invariant_listen_loop can_open msgs :
  invariant P (listen_loop can_open msgs).
Proof.
  induction msgs as [| data rest IH]; cbn [listen_loop].
  - apply invariant_still. reflexivity.
  - apply invariant_bind; [| intros _; exact IH].
    destruct data; try (apply invariant_still; reflexivity).
    apply invariant_bind; [apply invariant_still; reflexivity | intros [name val]].
    destruct (eq_str name "socket"); [apply invariant_still; reflexivity |].
    destruct (eq_str name "mplayer-fifo"); [apply invariant_bindfifo |].
    destruct (eq_str name "mpv-fifo"); [apply invariant_bindfifo |].
    apply invariant_setproperty.
Qed.

Lemma invariant_listenstatus can_open msgs :
  invariant P (listenstatus can_open msgs).
Proof.
  unfold listenstatus. apply invariant_try; [apply invariant_listen_loop |].
  intros e h [= <-]. apply invariant_still. reflexivity.
Qed.

End Invariants.

Lemma init_well_typed pid : well_typed (init pid).
Proof.
  repeat split; try reflexivity.
  - cbn. auto.
  - intros l H. discriminate.
Qed.

(** X6. The values of the store always fit the D-Bus types they are
    published with: the status is one of the three, the position and the
    track length are signed 64-bit numbers, and the track identifier is an
    object path of valid syntax. This holds of a new player and is kept by
    every event sequence, by the relay loop, by a socket bind with its read
    loop and by a pipe bind, whatever they receive and however they end. *)
Theorem store_stays_well_typed :
  (forall pid, well_typed (init pid))
  /\ (forall s,
      well_typed s ->
      (forall events, well_typed (final (apply_events events s)))
      /\ (forall can_open msgs, well_typed (final (listenstatus can_open msgs s)))
      /\ (forall connects lines fin sockpath,
          well_typed (final (bindmpv connects lines fin sockpath s)))
      /\ (forall can_open fifopath flag,
          well_typed (final (bindfifo can_open fifopath flag s)))).
Proof.
  split; [apply init_well_typed |].
  intros s Hs.
  assert (Hc : forall c s0, typed_change c -> well_typed s0 ->
                 well_typed (final (commit c s0)))
    by (intros; now apply commit_typed).
  assert (H1 : forall (v : option string) s0, well_typed s0 ->
                 well_typed (set_socket v s0)) by (intros v s0 H; exact H).
  assert (H2 : forall (v : option pyval) s0, well_typed s0 ->
                 well_typed (set_fifo v s0)) by (intros v s0 H; exact H).
  assert (H3 : forall (v : bool) s0, well_typed s0 ->
                 well_typed (set_mpv v s0)) by (intros v s0 H; exact H).
  split; [| split; [| split]]; intros.
  - now apply (invariant_apply_events well_typed Hc).
  - now apply (invariant_listenstatus well_typed Hc H2 H3).
  - now apply (invariant_bindmpv well_typed Hc H1 H3).
  - now apply (invariant_bindfifo well_typed H2 H3).
Qed.

(** X6, at a run of the relay from the initial state. *)
Lemma store_stays_well_typed_witness :
  well_typed (init 0)
  /\ well_typed
       (final (listenstatus (fun _ => true)
                 [PTuple [PStr "mpv-fifo"; PStr "/tmp/mpv.fifo"];
                  PTuple [PStr "metadata";
                          PTuple [PStr "abc-123_X"; PStr "Title"; PInt 212]];
                  PTuple [PStr "time-pos"; PFloat 12.5%float];
                  PTuple [PStr "stop"; PBool true]]
                 (init 0))).
Proof.
  assert (H : well_typed (init 0)) by apply init_well_typed.
  split; [exact H |].
  exact (proj1 (proj2 (proj2 store_stays_well_typed (init 0) H)) _ _).
Defined.

Lemma GetAll_root s :
  GetAll ROOT_INTERFACE s
  = Run s []
      (Ok (read_only (root_partitions (properties s))
           ++ read_write (root_partitions (properties s)))%list).
Proof. reflexivity. Qed.

(** X7. No event touches the bound transport, the root interface, or the
    rates and capabilities of the player: an event sequence, and the read
    loop of a socket, leave them as they were. So the snapshot of the root
    interface is the same after any events, and from a new player it is the
    one of the constructor. *)
Theorem events_keep_constants :
  forall s,
    (forall events,
       constants_of (final (apply_events events s)) = constants_of s)
    /\ (forall lines fin observe_full,
       constants_of (final (read_loop lines fin observe_full s))
       = constants_of s)
    /\ (forall events,
       outcome (GetAll ROOT_INTERFACE (final (apply_events events s)))
       = outcome (GetAll ROOT_INTERFACE s))
    /\ (forall events pid,
       outcome (GetAll ROOT_INTERFACE (final (apply_events events (init pid))))
       = Ok [("CanQuit", DBus.Basic (DBus.Boolean false));
             ("CanSetFullscreen", DBus.Basic (DBus.Boolean false));
             ("CanRaise", DBus.Basic (DBus.Boolean false));
             ("HasTrackList", DBus.Basic (DBus.Boolean false));
             ("Identity", DBus.Basic (DBus.String_ (IDENTITY pid)));
             ("SupportedUriSchemes", DBus.Basic (DBus.StringArray []));
             ("SupportedMimeTypes", DBus.Basic (DBus.StringArray []));
             ("Fullscreen", DBus.Basic (DBus.Boolean false))]).
Proof.
  assert (Hc : forall x c s0, typed_change c -> constants_of s0 = x ->
                 constants_of (final (commit c s0)) = x)
    by (intros x c s0 _ <-; apply commit_constants).
  assert (He : forall events s0,
            constants_of (final (apply_events events s0)) = constants_of s0).
  { intros events s0.
    now apply (invariant_apply_events (fun s' => constants_of s' = constants_of s0)
                 (Hc (constants_of s0))). }
  assert (Hroot : forall s1 s2, constants_of s1 = constants_of s2 ->
            outcome (GetAll ROOT_INTERFACE s1) = outcome (GetAll ROOT_INTERFACE s2)).
  { intros s1 s2 H. rewrite !GetAll_root. cbn [outcome].
    unfold root_partitions. injection H as _ _ _ -> -> _ _ _ _. reflexivity. }
  intros s. split; [intros events; apply He | split; [| split]].
  - intros lines fin observe_full.
    now apply (invariant_read_loop (fun s' => constants_of s' = constants_of s)
                 (Hc (constants_of s))).
  - intros events. apply Hroot, He.
  - intros events pid.
    rewrite (Hroot _ (init pid) (He events (init pid))). reflexivity.
Qed.

(** ** Method calls *)

Lemma returning_final {A} (f : A -> reply) (m : M A) s :
  final (m s) = s -> final (returning f m s) = s.
Proof.
  intros H. unfold returning, bind, ret.
  destruct (outcome (m s)); cbn [final]; exact H.
Qed.

Lemma returning_trace {A} (f : A -> reply) (m : M A) s :
  trace (returning f m s) = trace (m s).
Proof.
  unfold returning, bind, ret.
  destruct (outcome (m s)); cbn [trace]; [apply app_nil_r | reflexivity ..].
Qed.

Lemma SetPosition_final track_id p s : final (SetPosition track_id p s) = s.
Proof.
  unfold SetPosition. rewrite bind_get_run.
  destruct (String.eqb track_id _); [| reflexivity].
  rewrite bind_lift_run. unfold SetPosition_name.
  replace (String.eqb "offset" "track_id") with false by reflexivity.
  replace (String.eqb "offset" "position") with false by reflexivity.
  reflexivity.
Qed.

Lemma sendcommand_writes command s :
  Forall is_write (trace (_sendcommand command s)).
Proof.
  rewrite _sendcommand_run. unfold sent. cbn [trace].
  destruct (bound (socket s)); [repeat constructor |].
  destruct (bound (fifo s)); repeat constructor.
Qed.

Ltac writes_step :=
  first
    [ apply sendcommand_writes
    | trace_step
    | match goal with
      | |- Forall _ (trace ((match ?x with _ => _ end) _)) => destruct x
      end ].

Lemma invoke_writes c s : Forall is_write (trace (invoke c s)).
Proof.
  destruct c; cbn [invoke]; rewrite returning_trace;
    unfold Raise_, Quit, Next, Previous, Pause, PlayPause, Stop, Play, Seek,
      SetPosition, OpenUri, Get, GetAll, Set_, pass;
    repeat writes_step.
Qed.

Lemma invoke_final c s : final (invoke c s) = s.
Proof.
  destruct c; cbn [invoke]; apply returning_final;
    try reflexivity;
    try (unfold Next, Previous, Stop; now rewrite _sendcommand_run).
  - now rewrite Pause_run.
  - unfold PlayPause. rewrite bind_get_run.
    destruct (mpv s); now rewrite _sendcommand_run.
  - now rewrite Play_run.
  - unfold Seek. rewrite bind_lift_run.
    destruct (truediv offset (10 ^ 6)); [now rewrite _sendcommand_run | reflexivity ..].
  - apply SetPosition_final.
  - unfold Get, bind. cbn [GetAll].
    unfold GetAll. rewrite bind_get_run.
    destruct (interface (properties s) interface_name) as [p |]; [| reflexivity].
    cbn [outcome final ret]. destruct (dict_get _ _); reflexivity.
  - unfold GetAll. rewrite bind_get_run.
    destruct (interface (properties s) interface_name); reflexivity.
  - apply Set_final.
Qed.

(** X8. No method call changes the object: after any call, and after any
    sequence of calls served one after the other, whether they return or
    raise, the attributes and the property table are as before. All a call
    does is write commands to the backend: no call emits a signal, sleeps,
    connects or opens. *)
Theorem calls_leave_the_object :
  (forall c s,
     final (invoke c s) = s /\ Forall is_write (trace (invoke c s)))
  /\ (forall calls s,
     serve calls s = (s, flat_map (fun c => trace (invoke c s)) calls)).
Proof.
  split.
  - intros c s. split; [apply invoke_final | apply invoke_writes].
  - induction calls as [| c rest IH]; intros s; cbn [serve flat_map].
    + reflexivity.
    + rewrite invoke_final, IH. reflexivity.
Qed.

(** X5, at a position of five seconds announced twice to the initial state. *)
Lemma event_applied_twice_witness :
  outcome (setproperty (PStr "time-pos") (PInt 5) (init 0)) = Ok tt
  /\ (forall f, PStr "time-pos" = PStr "volume" -> float_ (PInt 5) = Ok f ->
      PrimFloat.is_nan (PrimFloat.div f 100%float) = false)
  /\ setproperty (PStr "time-pos") (PInt 5)
       (final (setproperty (PStr "time-pos") (PInt 5) (init 0)))
     = Run (final (setproperty (PStr "time-pos") (PInt 5) (init 0))) [] (Ok tt).
Proof.
  assert (H : outcome (setproperty (PStr "time-pos") (PInt 5) (init 0)) = Ok tt)
    by reflexivity.
  assert (Hn : forall f, PStr "time-pos" = PStr "volume" ->
                 float_ (PInt 5) = Ok f ->
                 PrimFloat.is_nan (PrimFloat.div f 100%float) = false)
    by (intros f Hf; discriminate Hf).
  split; [exact H | split; [exact Hn |]].
  exact (proj1 event_applied_twice (PStr "time-pos") (PInt 5) (init 0) H Hn).
Defined.

(** ** Binding a pipe *)




(** ** The relay *)

Lemma bind_ext_l {A B} (m m' : M A) (k : A -> M B) s :
  m s = m' s -> bind m k s = bind m' k s.
Proof. intros H. unfold bind. now rewrite H. Qed.

Lemma bind_ret_run {A B} (a : A) (k : A -> M B) s : bind (ret a) k s = k a s.
Proof. unfold bind, ret. cbn. apply run_eta. Qed.

Lemma listen_loop_event can_open name val msgs s :
  plain_event (name, val) ->
  listen_loop can_open (message (name, val) :: msgs) s
  = bind (setproperty name val) (fun _ => listen_loop can_open msgs) s.
Proof.
  intros Hp. cbn [listen_loop message fst snd]. apply bind_ext_l.
  rewrite bind_lift_run. cbn [unpack2].
  rewrite !eq_str_false by (apply (Hp _); cbn; auto).
  reflexivity.
Qed.

Lemma listen_loop_plain can_open events :
  Forall plain_event events ->
  forall s,
    listen_loop can_open (map message events) s
    = Run (final (apply_events events s)) (trace (apply_events events s))
        match outcome (apply_events events s) with
        | Ok _ => Raise EOFError
        | Raise e => Raise e
        | Unsupported => Unsupported
        end.
Proof.
  induction 1 as [| [name val] rest Hp _ IH]; intros s.
  - reflexivity.
  - cbn [map]. rewrite (listen_loop_event _ _ _ _ _ Hp).
    cbn [apply_events]. unfold bind.
    destruct (outcome (setproperty name val s)); [| reflexivity ..].
    rewrite IH. reflexivity.
Qed.

Lemma listen_loop_socket can_open sockpath msgs s :
  listen_loop can_open (PTuple [PStr "socket"; sockpath] :: msgs) s
  = Run (final (listen_loop can_open msgs s))
      (Spawn_bindmpv sockpath :: trace (listen_loop can_open msgs s))
      (outcome (listen_loop can_open msgs s)).
Proof.
  cbn [listen_loop].
  rewrite (bind_ext_l _ (perform (Spawn_bindmpv sockpath)))
    by (now rewrite bind_lift_run).
  unfold bind, perform. cbn [outcome final trace app].
  reflexivity.
Qed.

(** X10. The relay applies the change events it receives in order, as
    [setproperty] does, up to the end of the channel or the first event that
    raises; it ends without an exception either way. An event that raises
    ends the relay: nothing is stored or emitted for it, and every message
    behind it is dropped, unseen. *)
Theorem relay_applies_events :
  forall can_open,
    (forall events s,
       Forall plain_event events ->
       final (listenstatus can_open (map message events) s)
       = final (apply_events events s)
       /\ trace (listenstatus can_open (map message events) s)
          = trace (apply_events events s)
       /\ (outcome (apply_events events s) <> Unsupported ->
           outcome (listenstatus can_open (map message events) s) = Ok tt))
    /\ (forall name val msgs s e,
       plain_event (name, val) ->
       outcome (setproperty name val s) = Raise e ->
       listenstatus can_open (message (name, val) :: msgs) s
       = Run s [] (Ok tt)).
Proof.
  intros can_open. split.
  - intros events s Hp. unfold listenstatus, try_except.
    rewrite (listen_loop_plain can_open events Hp s). cbn [outcome final trace].
    destruct (outcome (apply_events events s)); cbn [pass ret final trace outcome];
      rewrite ?app_nil_r; repeat split; congruence.
  - intros name val msgs s e Hp He. rewrite setproperty_outcome in He.
    destruct (resolve name val) as [| e' |] eqn:E; try discriminate.
    unfold listenstatus, try_except.
    rewrite (listen_loop_event _ _ _ _ _ Hp). unfold bind.
    rewrite (setproperty_raised name val e' s E). reflexivity.
Qed.

(** X10, at a volume that is a list, followed by a pause. *)
Lemma relay_applies_events_witness :
  plain_event (PStr "volume", PList [])
  /\ outcome (setproperty (PStr "volume") (PList []) (init 0)) = Raise TypeError
  /\ listenstatus (fun _ => true)
       [message (PStr "volume", PList []); message (PStr "pause", PBool true)]
       (init 0)
     = Run (init 0) [] (Ok tt).
Proof.
  assert (Hp : plain_event (PStr "volume", PList [])).
  { intros tag Hin. cbn in Hin.
    repeat (destruct Hin as [<- | Hin]; [discriminate |]). contradiction. }
  assert (He : outcome (setproperty (PStr "volume") (PList []) (init 0))
               = Raise TypeError) by reflexivity.
  split; [exact Hp | split; [exact He |]].
  exact (proj2 (relay_applies_events (fun _ => true))
           (PStr "volume") (PList []) [message (PStr "pause", PBool true)]
           (init 0) TypeError Hp He).
Defined.

(** X11. What is received and is no change event. An object that is no
    tuple is skipped. A tuple that has not two items ends the relay at once,
    silently, whatever follows it. A [socket] message only starts the thread
    that binds the socket: the relay itself leaves the object alone and goes
    on with the next message. *)
Theorem relay_other_messages :
  forall can_open msgs s,
    (forall data,
       (forall l, data <> PTuple l) ->
       listenstatus can_open (data :: msgs) s = listenstatus can_open msgs s)
    /\ (forall l,
       List.length l <> 2%nat ->
       listenstatus can_open (PTuple l :: msgs) s = Run s [] (Ok tt))
    /\ (forall sockpath,
       listenstatus can_open (PTuple [PStr "socket"; sockpath] :: msgs) s
       = Run (final (listenstatus can_open msgs s))
           (Spawn_bindmpv sockpath :: trace (listenstatus can_open msgs s))
           (outcome (listenstatus can_open msgs s))).
Proof.
  intros can_open msgs s. split; [| split].
  - intros data Hd. unfold listenstatus, try_except.
    replace (listen_loop can_open (data :: msgs) s)
      with (listen_loop can_open msgs s); [reflexivity |].
    cbn [listen_loop].
    destruct data; try (unfold pass; now rewrite bind_ret_run).
    exfalso. eapply Hd. reflexivity.
  - intros l Hl.
    destruct l as [| a [| b [| c l]]]; try reflexivity.
    now contradiction Hl.
  - intros sockpath. unfold listenstatus, try_except.
    rewrite listen_loop_socket. cbn [outcome final trace].
    destruct (outcome (listen_loop can_open msgs s)) eqn:E;
      cbn [pass ret final trace outcome]; rewrite ?E; reflexivity.
Qed.

(** X11, at a triple received before a pause event. *)
Lemma relay_other_messages_witness :
  List.length [PStr "pause"; PBool true; PNone] <> 2%nat
  /\ listenstatus (fun _ => true)
       [PTuple [PStr "pause"; PBool true; PNone];
        PTuple [PStr "pause"; PBool true]] (init 0)
     = Run (init 0) [] (Ok tt).
Proof.
  assert (H : List.length [PStr "pause"; PBool true; PNone] <> 2%nat)
    by discriminate.
  split; [exact H |].
  exact (proj1 (proj2 (relay_other_messages (fun _ => true)
                         [PTuple [PStr "pause"; PBool true]] (init 0)))
           [PStr "pause"; PBool true; PNone] H).
Defined.

(** ** Reading the socket *)












(** ** A socket bind that connects *)





(** ** Properties that cannot be read or set *)

Lemma Set_other interface_name property_name new_value s :
  interface_name = ROOT_INTERFACE
  \/ (interface_name = PLAYER_INTERFACE /\ property_name <> "Volume") ->
  Set_ interface_name property_name new_value s = Run s [] (Ok tt).
Proof.
  intros [-> | [-> Hv]]; unfold Set_; rewrite bind_get_run.
  - change (interface (properties s) ROOT_INTERFACE)
      with (Some (root_partitions (properties s))).
    unfold dict_mem. cbn [read_write root_partitions dict_get].
    destruct (String.eqb_spec property_name "Fullscreen") as [-> |];
      reflexivity.
  - change (interface (properties s) PLAYER_INTERFACE)
      with (Some (player_partitions (properties s))).
    unfold dict_mem. cbn [read_write player_partitions dict_get].
    destruct (String.eqb_spec property_name "Rate") as [-> |]; [reflexivity |].
    destruct (String.eqb_spec property_name "Volume"); [contradiction |].
    reflexivity.
Qed.

Lemma dict_get_absent {A} (d : dict A) k :
  ~ In k (map fst d) -> dict_get d k = None.
Proof.
  induction d as [| [k' v] rest IH]; cbn [dict_get map fst In]; intros H.
  - reflexivity.
  - destruct (String.eqb_spec k k') as [-> |]; [exfalso; auto |].
    apply IH. auto.
Qed.

Lemma Get_absent interface_name property_name s d :
  GetAll interface_name s = Run s [] (Ok d) ->
  ~ In property_name (map fst d) ->
  Get interface_name property_name s = Run s [] (Raise (KeyError property_name)).
Proof.
  intros HG Hk. unfold Get.
  erewrite (bind_ok (GetAll interface_name)) by exact HG.
  now rewrite (dict_get_absent d property_name Hk).
Qed.

(** X14. Where [Set] and [Get] have nothing to do. On the root interface,
    and on every property of the player interface but [Volume], [Set]
    returns without an error and without a write, whatever the value:
    for [Rate] and [Fullscreen], for the read-only properties and for names
    the interface does not have alike. [Set] of the player's [Volume] to a
    value that cannot be multiplied raises and writes nothing. [Get] of a
    name that is not a property of the interface raises [KeyError] with the
    name. None of them changes the object. *)
Theorem Set_and_Get_elsewhere :
  forall s,
    (forall interface_name property_name new_value,
       interface_name = ROOT_INTERFACE
       \/ (interface_name = PLAYER_INTERFACE /\ property_name <> "Volume") ->
       Set_ interface_name property_name new_value s = Run s [] (Ok tt))
    /\ (forall new_value e,
       mul_int new_value 100 = Raise e ->
       Set_ PLAYER_INTERFACE "Volume" new_value s = Run s [] (Raise e))
    /\ (forall property_name,
       ~ In property_name
           ["CanQuit"; "CanSetFullscreen"; "CanRaise"; "HasTrackList";
            "Identity"; "SupportedUriSchemes"; "SupportedMimeTypes";
            "Fullscreen"] ->
       Get ROOT_INTERFACE property_name s
       = Run s [] (Raise (KeyError property_name)))
    /\ (forall property_name,
       ~ In property_name
           ["PlaybackStatus"; "Metadata"; "Position"; "MinimumRate";
            "MaximumRate"; "CanGoNext"; "CanGoPrevious"; "CanPlay";
            "CanPause"; "CanSeek"; "CanControl"; "Rate"; "Volume"] ->
       Get PLAYER_INTERFACE property_name s
       = Run s [] (Raise (KeyError property_name))).
Proof.
  intros s. split; [| split; [| split]].
  - intros. now apply Set_other.
  - intros new_value e H. unfold Set_, bind, get, lift.
    cbn -[mul_int _sendcommand sent]. rewrite H. reflexivity.
  - intros property_name H.
    eapply Get_absent; [apply GetAll_root | exact H].
  - intros property_name H.
    eapply Get_absent; [apply GetAll_player | exact H].
Qed.

(** X14, at a write to the read-only status and at a read of a property of
    the track list. *)
Lemma Set_and_Get_elsewhere_witness :
  (PLAYER_INTERFACE = ROOT_INTERFACE
   \/ (PLAYER_INTERFACE = PLAYER_INTERFACE /\ "PlaybackStatus" <> "Volume"))
  /\ Set_ PLAYER_INTERFACE "PlaybackStatus" (PStr "Playing") (init 0)
     = Run (init 0) [] (Ok tt).
Proof.
  assert (H : PLAYER_INTERFACE = ROOT_INTERFACE
              \/ (PLAYER_INTERFACE = PLAYER_INTERFACE
                  /\ "PlaybackStatus" <> "Volume"))
    by (right; split; [reflexivity | discriminate]).
  split; [exact H |].
  exact (proj1 (Set_and_Get_elsewhere (init 0))
           PLAYER_INTERFACE "PlaybackStatus" (PStr "Playing") H).
Defined.

(** ** One command, one line *)

Section Framing.

Lemma string_app_assoc (a b c : string) : (a ++ b) ++ c = a ++ b ++ c.
Proof. induction a as [| x a IH]; cbn [append]; [| rewrite IH]; reflexivity. Qed.

Lemma one_line_app a b : one_line a -> one_line b -> one_line (a ++ b).
Proof.
  unfold one_line. induction a as [| c a IH]; cbn [append string_forall].
  - auto.
  - intros [Hc Ha] Hb. split; auto.
Qed.

Lemma one_line_concat sep l :
  one_line sep -> Forall one_line l -> one_line (String.concat sep l).
Proof.
  intros Hsep. induction 1 as [| x [| y rest] Hx Hrest IH];
    cbn [String.concat].
  - exact I.
  - exact Hx.
  - apply one_line_app; [exact Hx |]. apply one_line_app; [exact Hsep |].
    exact IH.
Qed.

Lemma chars_characters s : Forall character (chars s).
Proof.
  induction s as [| c rest IH]; cbn [chars]; [constructor |].
  destruct (chars rest) as [| ch more]; [repeat constructor |].
  inversion IH as [| ? ? Hch Hmore]; subst.
  destruct ch as [| c' t]; [contradiction |].
  destruct (is_continuation c') eqn:E.
  - constructor; [| exact Hmore]. cbn [character string_forall]. auto.
  - constructor; [exact I | exact IH].
Qed.

Lemma continuation_not_newline c : is_continuation c = true -> not_newline c = true.
Proof.
  unfold is_continuation, not_newline. intros H.
  destruct (Ascii.eqb_spec c "010"%char) as [-> |]; [discriminate | reflexivity].
Qed.

Lemma continuations_one_line t : string_forall is_continuation t -> one_line t.
Proof.
  unfold one_line. induction t as [| c t IH]; cbn [string_forall]; [auto |].
  intros [Hc Ht]. split; [now apply continuation_not_newline | auto].
Qed.

Lemma lor_ge_l a b : (a <= N.lor a b)%N.
Proof.
  assert (H0 : N.land a (N.ldiff b a) = 0%N).
  { apply N.bits_inj. intros n.
    rewrite N.land_spec, N.ldiff_spec, N.bits_0.
    destruct (N.testbit a n), (N.testbit b n); reflexivity. }
  assert (H1 : N.lor a (N.ldiff b a) = N.lor a b).
  { apply N.bits_inj. intros n.
    rewrite !N.lor_spec, N.ldiff_spec.
    destruct (N.testbit a n), (N.testbit b n); reflexivity. }
  rewrite <- H1, <- (N.lxor_lor _ _ H0), <- (N.add_nocarry_lxor _ _ H0).
  lia.
Qed.

Lemma code_step_ge acc b :
  (acc * 64 <= N.lor (N.shiftl acc 6) (N.land (N_of_ascii b) 63))%N.
Proof.
  eapply N.le_trans; [| apply lor_ge_l].
  rewrite N.shiftl_mul_pow2. change (2 ^ 6)%N with 64%N. lia.
Qed.

Lemma code_fold_ge t :
  forall acc,
    (acc <= fold_left
              (fun acc b => N.lor (N.shiftl acc 6) (N.land (N_of_ascii b) 63))
              t acc)%N.
Proof.
  induction t as [| b t IH]; intros acc; cbn [fold_left]; [lia |].
  eapply N.le_trans; [| apply IH].
  pose proof (code_step_ge acc b). lia.
Qed.

(** A character that starts with a newline does not stand for itself. *)
Lemma newline_code t :
  ((32 <=? Wire.code_point (String "010"%char t))
   && (Wire.code_point (String "010"%char t) <=? 126))%N = false.
Proof.
  unfold Wire.code_point.
  replace (N_of_ascii "010"%char) with 10%N by reflexivity.
  replace (10 <? 128)%N with true by reflexivity.
  destruct t as [| b t]; [reflexivity |].
  cbn [list_ascii_of_string fold_left].
  match goal with
  | |- context [fold_left ?f ?l ?a] =>
      pose proof (code_fold_ge l a) as H; cbv beta in H;
      pose proof (code_step_ge 10 b) as H';
      set (n := fold_left f l a) in *
  end.
  apply andb_false_iff. right. apply N.leb_gt. lia.
Qed.

Lemma hex_digit_not_newline n :
  (n < 16)%N -> not_newline (Wire.hex_digit n) = true.
Proof.
  intros H. destruct n as [| p]; [reflexivity |].
  do 4 (try destruct p as [p | p |]); try reflexivity; lia.
Qed.

Lemma land_15_lt n : (N.land n 15 < 16)%N.
Proof.
  change 15%N with (N.ones 4). rewrite N.land_ones.
  apply N.mod_lt. discriminate.
Qed.

Lemma u_escape_one_line n : one_line (Wire.u_escape n).
Proof.
  unfold Wire.u_escape, one_line. cbn [string_forall].
  rewrite !hex_digit_not_newline by apply land_15_lt.
  repeat split.
Qed.

Lemma escape_char_one_line ch : character ch -> one_line (Wire.escape_char ch).
Proof.
  intros Hch. unfold Wire.escape_char.
  repeat match goal with
  | |- one_line (if ?c then _ else _) =>
      lazymatch c with
      | ((32 <=? _) && _)%N => fail
      | _ => destruct c; [repeat split |]
      end
  end.
  destruct ((32 <=? Wire.code_point ch) && (Wire.code_point ch <=? 126))%N eqn:E.
  - destruct ch as [| b t]; [contradiction |]. cbn [character] in Hch.
    split; [| now apply continuations_one_line].
    unfold not_newline.
    destruct (Ascii.eqb_spec b "010"%char) as [-> |]; [| reflexivity].
    now rewrite newline_code in E.
  - repeat match goal with
    | |- one_line (if ?c then _ else _) => destruct c; [repeat split |]
    end;
    try apply u_escape_one_line.
    apply one_line_app; apply u_escape_one_line.
Qed.

Lemma json_string_one_line s : one_line (Wire.json_string s).
Proof.
  unfold Wire.json_string.
  apply one_line_app; [repeat split |].
  apply one_line_app; [| repeat split].
  apply one_line_concat; [exact I |].
  apply Forall_map. eapply Forall_impl; [| apply chars_characters].
  apply escape_char_one_line.
Qed.

Lemma uint_one_line d : one_line (NilEmpty.string_of_uint d).
Proof. induction d; cbn; repeat split; assumption. Qed.

Lemma uint_or_zero_one_line d : one_line (NilZero.string_of_uint d).
Proof.
  unfold NilZero.string_of_uint.
  destruct d; [split; [reflexivity | exact I] | apply uint_one_line ..].
Qed.

Lemma decimal_one_line z : one_line (Wire.decimal z).
Proof.
  unfold Wire.decimal, NilZero.string_of_int.
  destruct (Z.to_int z) as [d | d].
  - apply uint_or_zero_one_line.
  - split; [reflexivity | apply uint_or_zero_one_line].
Qed.

Variable float_repr : float -> string.
Hypothesis float_repr_one_line : forall f, one_line (float_repr f).

Lemma json_float_one_line f : one_line (Wire.json_float float_repr f).
Proof.
  unfold Wire.json_float.
  repeat match goal with
  | |- one_line (if ?c then _ else _) => destruct c; [repeat split |]
  end.
  apply float_repr_one_line.
Qed.

Lemma json_list_one_line l :
  Forall (fun v => one_line (Wire.json_dumps float_repr v)) l ->
  one_line (Wire.json_dumps float_repr (PList l)).
Proof.
  intros H. cbn [Wire.json_dumps].
  apply one_line_app; [repeat split |].
  apply one_line_app; [| repeat split].
  apply one_line_concat; [repeat split |].
  induction H; constructor; assumption.
Qed.

Lemma json_dumps_one_line : forall v, one_line (Wire.json_dumps float_repr v).
Proof.
  fix IH 1. intros v.
  assert (Hl : forall l, Forall (fun v => one_line (Wire.json_dumps float_repr v)) l
                         -> one_line (Wire.json_dumps float_repr (PTuple l)))
    by exact json_list_one_line.
  destruct v as [| b | z | f | s | l | l].
  - repeat split.
  - destruct b; repeat split.
  - apply decimal_one_line.
  - apply json_float_one_line.
  - apply json_string_one_line.
  - apply Hl. induction l as [| x l IHl]; constructor; [apply IH | exact IHl].
  - apply json_list_one_line.
    induction l as [| x l IHl]; constructor; [apply IH | exact IHl].
Qed.

Lemma socket_wire_one_line command :
  exists body,
    Wire.socket_wire float_repr command = body ++ newline /\ one_line body.
Proof.
  exists ("{" ++ Wire.json_string "command" ++ ": "
          ++ Wire.json_dumps float_repr (PList command) ++ "}").
  split.
  - unfold Wire.socket_wire, newline.
    rewrite !string_app_assoc. reflexivity.
  - apply one_line_app; [repeat split |].
    apply one_line_app; [apply json_string_one_line |].
    apply one_line_app; [repeat split |].
    apply one_line_app; [apply json_dumps_one_line | repeat split].
Qed.

End Framing.

Lemma str_items_strings float_repr ss :
  Wire.str_items float_repr (map PStr ss) = Some ss.
Proof.
  induction ss as [| x ss IH]; cbn [map Wire.str_items]; [reflexivity |].
  rewrite IH. reflexivity.
Qed.

(** X15. What [_sendcommand] writes on the socket for a command is one
    line, whatever the command holds: the text before the final newline
    has no newline, since JSON escapes the ones of the strings (the text of
    a float has none). On the pipe the strings of a command are written as
    they are, so that a newline in one of them ends the line there. *)
Theorem socket_command_is_one_line :
  forall float_repr,
    (forall f, one_line (float_repr f)) ->
    (forall command,
       exists body,
         Wire.socket_wire float_repr command = body ++ newline
         /\ one_line body)
    /\ (forall ss,
       Wire.fifo_wire float_repr (map PStr ss)
       = Some (String.concat " " ss ++ newline)).
Proof.
  intros float_repr H. split.
  - intros command. now apply socket_wire_one_line.
  - intros ss. unfold Wire.fifo_wire. now rewrite str_items_strings.
Qed.

(** X15, at a command that carries a title of two lines. *)
Lemma socket_command_is_one_line_witness :
  (forall f, one_line ((fun _ : float => "0.5") f))
  /\ exists body,
       Wire.socket_wire (fun _ => "0.5")
         [PStr "show_text"; PStr ("one" ++ newline ++ "two")]
       = body ++ newline
       /\ one_line body.
Proof.
  assert (H : forall f, one_line ((fun _ : float => "0.5") f))
    by (intros f; repeat split).
  split; [exact H |].
  exact (proj1 (socket_command_is_one_line (fun _ => "0.5") H)
           [PStr "show_text"; PStr ("one" ++ newline ++ "two")]).
Defined.
